(** * Turtle's Adventure: a shallow embedding of [turtle_adventure.py]

    Positions are real-valued (the player's come from the turtle, the
    enemies' mix integers and quotients), so coordinates are modelled in
    [R]; everything the source declares as [int] (level, sizes, screen
    dimensions, timers, the walker's speed) is a [Z].  Comparisons of the
    source are the boolean tests [Rltb]/[Rleb] below.

    The classes keep their names.  A method [C.m] of the source is the
    definition [C_m].  Methods that touch the game (canvas, the element
    collection, the random module, the scheduler) live in the monad [M],
    which threads the game object and propagates Python exceptions. *)

From Stdlib Require Import Reals Lra Lia ZArith List Bool String.
Import ListNotations.
Local Open Scope Z_scope.
Local Open Scope R_scope.

(** ** Comparisons on floats, idealised as reals *)

Definition Rltb (a b : R) : bool := if Rlt_dec a b then true else false.
Definition Rleb (a b : R) : bool := if Rle_dec a b then true else false.

(** ** The turtle (Python's [turtle.RawTurtle]), idealised

    Only the operations the player uses.  An angle is represented by the
    unit vector of its direction, so [towards] followed by [setheading]
    stores the direction of the target, and heading 0 (what [atan2(0, 0)]
    gives when the target is the turtle's own position) is the vector
    (1, 0).  Rounding of angles and coordinates is not modelled. *)

Record Vec2D := mkVec { vx : R; vy : R }.

Record RawTurtle := mkTurtle { position : Vec2D; orient : Vec2D }.

Definition RawTurtle_new : RawTurtle :=
  {| position := mkVec 0 0; orient := mkVec 1 0 |}.

Definition xcor (t : RawTurtle) : R := vx (position t).
Definition ycor (t : RawTurtle) : R := vy (position t).

Definition setx (t : RawTurtle) (v : R) : RawTurtle :=
  {| position := mkVec v (ycor t); orient := orient t |}.
Definition sety (t : RawTurtle) (v : R) : RawTurtle :=
  {| position := mkVec (xcor t) v; orient := orient t |}.

Definition distance (t : RawTurtle) (x y : R) : R :=
  sqrt (Rsqr (x - xcor t) + Rsqr (y - ycor t)).

Definition towards (t : RawTurtle) (x y : R) : Vec2D :=
  let d := distance t x y in
  if Rltb 0 d then mkVec ((x - xcor t) / d) ((y - ycor t) / d) else mkVec 1 0.

Definition setheading (t : RawTurtle) (a : Vec2D) : RawTurtle :=
  {| position := position t; orient := a |}.

Definition forward (t : RawTurtle) (d : R) : RawTurtle :=
  {| position := mkVec (xcor t + d * vx (orient t)) (ycor t + d * vy (orient t));
     orient := orient t |}.

(** ** Data model *)

(** The canvas is a collaborator the core only writes to: it is modelled
    as the log of the calls made on it.  Item ids are handles allocated in
    order. *)
Inductive CanvasOp :=
| create_line (id : nat) (fill : string) (width : Z)
| create_rectangle (id : nat) (style : string)
| create_oval (id : nat) (fill : string)
| create_text (id : nat) (x y : R) (text fill : string)
| itemconfigure (id : option nat) (opt value : string)
| coords (id : option nat) (x1 y1 x2 y2 : R)
| tag_raise (id : option nat)
| canvas_delete (id : option nat)
| turtle_goto (x y : R)
| screen_update.

Record Waypoint := mkWaypoint {
  wp_id1 : option nat; wp_id2 : option nat;
  wp_active : bool; wp_x : R; wp_y : R }.

Record Home := mkHome {
  home_id : option nat; home_size : Z; home_x : R; home_y : R }.

Record Player := mkPlayer { player_speed : R; player_turtle : RawTurtle }.

(** The attributes every enemy inherits from [Enemy] (size, color) and
    from the game element base class (x, y). *)
Record Enemy := mkEnemy { x : R; y : R; size : Z; color : string }.

Inductive WalkState := walk_left | walk_right.

Record RandomWalkEnemy := mkRandomWalk {
  rw_enemy : Enemy; rw_id : option nat; rw_color2 : string;
  rw_state : WalkState; rw_speed : Z }.

Inductive XState := x_left | x_right.
Inductive YState := y_up | y_down.

Record ChasingEnemy := mkChasing {
  ch_enemy : Enemy; ch_id : option nat; ch_color2 : string;
  ch_xstate : XState; ch_ystate : YState; ch_speed : R }.

Inductive FenceState := fence_down | fence_right | fence_up | fence_left.

Record FencingEnemy := mkFencing {
  fe_enemy : Enemy; fe_id : option nat; fe_color2 : string;
  fe_state : FenceState; fe_speed : R;
  home_top : R; home_bottom : R; home_left : R; home_right : R }.

Record DeDestroyerEnemy := mkDeDestroyer {
  dd_enemy : Enemy; dd_id : option nat; dd_id2 : option nat; dd_id3 : option nat;
  dd_color2 : string; dd_timer : Z; distance_barrel : Z }.

Record Bomb := mkBomb { bomb_enemy : Enemy; bomb_id : option nat; bomb_timer : Z }.

(** An entry of the game's element collection.  The waypoint, the home and
    the player are the objects the game also holds in its own attributes:
    the collection refers to them, it does not copy them. *)
Inductive GameElement :=
| TheWaypoint
| TheHome
| ThePlayer
| ARandomWalkEnemy (e : RandomWalkEnemy)
| AChasingEnemy (e : ChasingEnemy)
| AFencingEnemy (e : FencingEnemy)
| ADeDestroyerEnemy (e : DeDestroyerEnemy)
| ABomb (b : Bomb).

Inductive EnemyClass :=
  RandomWalkEnemy_cls | ChasingEnemy_cls | FencingEnemy_cls | DeDestroyerEnemy_cls.

Record EnemyGenerator := mkGenerator {
  gen_level : Z; gen_speed : Z;
  enemy_dict : list (EnemyClass * (string * string)) }.

Inductive Callback := cb_create_enemy.

Record TurtleAdventureGame := mkGame {
  level : Z;
  screen_width : Z;
  screen_height : Z;
  waypoint : Waypoint;
  home : Home;
  player : Player;
  enemies : list GameElement;
  enemy_generator : EnemyGenerator;
  (* the inherited part of the game object *)
  elements : list GameElement;
  stopped : bool;
  (* collaborators: canvas, its reported width, Tk timers, random stream *)
  canvas : list CanvasOp;
  next_id : nat;
  winfo_width : Z;
  scheduled : list (Z * Callback);
  tape : list Z }.

(** Attribute assignment, one setter per attribute the code assigns. *)

Definition set_x (e : Enemy) (v : R) : Enemy :=
  {| x := v; y := y e; size := size e; color := color e |}.
Definition set_y (e : Enemy) (v : R) : Enemy :=
  {| x := x e; y := v; size := size e; color := color e |}.

Definition set_waypoint (g : TurtleAdventureGame) (v : Waypoint) :=
  mkGame (level g) (screen_width g) (screen_height g) v (home g) (player g)
    (enemies g) (enemy_generator g) (elements g) (stopped g) (canvas g)
    (next_id g) (winfo_width g) (scheduled g) (tape g).
Definition set_home (g : TurtleAdventureGame) (v : Home) :=
  mkGame (level g) (screen_width g) (screen_height g) (waypoint g) v (player g)
    (enemies g) (enemy_generator g) (elements g) (stopped g) (canvas g)
    (next_id g) (winfo_width g) (scheduled g) (tape g).
Definition set_player (g : TurtleAdventureGame) (v : Player) :=
  mkGame (level g) (screen_width g) (screen_height g) (waypoint g) (home g) v
    (enemies g) (enemy_generator g) (elements g) (stopped g) (canvas g)
    (next_id g) (winfo_width g) (scheduled g) (tape g).
Definition set_enemies (g : TurtleAdventureGame) (v : list GameElement) :=
  mkGame (level g) (screen_width g) (screen_height g) (waypoint g) (home g)
    (player g) v (enemy_generator g) (elements g) (stopped g) (canvas g)
    (next_id g) (winfo_width g) (scheduled g) (tape g).
Definition set_enemy_generator (g : TurtleAdventureGame) (v : EnemyGenerator) :=
  mkGame (level g) (screen_width g) (screen_height g) (waypoint g) (home g)
    (player g) (enemies g) v (elements g) (stopped g) (canvas g)
    (next_id g) (winfo_width g) (scheduled g) (tape g).
Definition set_elements (g : TurtleAdventureGame) (v : list GameElement) :=
  mkGame (level g) (screen_width g) (screen_height g) (waypoint g) (home g)
    (player g) (enemies g) (enemy_generator g) v (stopped g) (canvas g)
    (next_id g) (winfo_width g) (scheduled g) (tape g).
Definition set_stopped (g : TurtleAdventureGame) (v : bool) :=
  mkGame (level g) (screen_width g) (screen_height g) (waypoint g) (home g)
    (player g) (enemies g) (enemy_generator g) (elements g) v (canvas g)
    (next_id g) (winfo_width g) (scheduled g) (tape g).
Definition set_canvas (g : TurtleAdventureGame) (v : list CanvasOp) (n : nat) :=
  mkGame (level g) (screen_width g) (screen_height g) (waypoint g) (home g)
    (player g) (enemies g) (enemy_generator g) (elements g) (stopped g) v
    n (winfo_width g) (scheduled g) (tape g).
Definition set_scheduled (g : TurtleAdventureGame) (v : list (Z * Callback)) :=
  mkGame (level g) (screen_width g) (screen_height g) (waypoint g) (home g)
    (player g) (enemies g) (enemy_generator g) (elements g) (stopped g)
    (canvas g) (next_id g) (winfo_width g) v (tape g).
Definition set_tape (g : TurtleAdventureGame) (v : list Z) :=
  mkGame (level g) (screen_width g) (screen_height g) (waypoint g) (home g)
    (player g) (enemies g) (enemy_generator g) (elements g) (stopped g)
    (canvas g) (next_id g) (winfo_width g) (scheduled g) v.

(** [winfo_width] is what [canvas.winfo_width()] answers: the current
    width of the canvas widget, which the code never assigns and the
    window system changes when the window is resized. *)
Definition set_winfo_width (g : TurtleAdventureGame) (v : Z) :=
  mkGame (level g) (screen_width g) (screen_height g) (waypoint g) (home g)
    (player g) (enemies g) (enemy_generator g) (elements g) (stopped g)
    (canvas g) (next_id g) v (scheduled g) (tape g).

(** ** Effects: a state monad over the game with Python's exceptions

    A computation returns a value, raises, or runs out of random draws
    ([TapeEnd], an artefact of giving the random stream as a finite tape).
    The game it returns is the game as mutated up to that point: a raised
    exception does not undo earlier assignments. *)

Inductive exn := ValueError | ZeroDivisionError | IndexError | AttributeError.

Inductive result (A : Type) :=
| Ok (a : A)
| Raise (e : exn)
| TapeEnd.
Arguments Ok {A} a.
Arguments Raise {A} e.
Arguments TapeEnd {A}.

Definition M (A : Type) : Type := TurtleAdventureGame -> result A * TurtleAdventureGame.

Definition ret {A} (a : A) : M A := fun g => (Ok a, g).

Definition bind {A B} (m : M A) (k : A -> M B) : M B :=
  fun g => match m g with
           | (Ok a, g') => k a g'
           | (Raise e, g') => (Raise e, g')
           | (TapeEnd, g') => (TapeEnd, g')
           end.

Notation "x <- m ;; k" := (bind m (fun x => k))
  (at level 61, m at next level, right associativity).
Notation "m ;; k" := (bind m (fun _ => k))
  (at level 61, right associativity).

Definition get : M TurtleAdventureGame := fun g => (Ok g, g).
Definition modify (f : TurtleAdventureGame -> TurtleAdventureGame) : M unit :=
  fun g => (Ok tt, f g).
Definition raise {A} (e : exn) : M A := fun g => (Raise e, g).
Definition when (b : bool) (m : M unit) : M unit := if b then m else ret tt.

(** Reading an attribute that [__init__] only annotates ([self.__id: int])
    and that [create] assigns: read before [create] has run, it does not
    exist and the read raises [AttributeError].  [None] stands for the
    missing attribute. *)
Definition attribute (a : option nat) : M (option nat) :=
  match a with
  | Some i => ret (Some i)
  | None => raise AttributeError
  end.

Definition run {A} (m : M A) (g : TurtleAdventureGame) : TurtleAdventureGame := snd (m g).
Definition outcome {A} (m : M A) (g : TurtleAdventureGame) : result A := fst (m g).

(** *** The random module

    [random.randint a b] takes the next draw of the tape and reduces it
    into [a..b], so every tape is admissible and every value of the range
    is produced by some tape.  An empty range raises, as in Python. *)

Definition randint (a b : Z) : M Z :=
  fun g =>
    if (b <? a)%Z then (Raise ValueError, g)
    else match tape g with
         | [] => (TapeEnd, g)
         | r :: rest => (Ok (a + r mod (b - a + 1))%Z, set_tape g rest)
         end.

Definition random_choice {A} (l : list A) : M A :=
  fun g =>
    match l with
    | [] => (Raise IndexError, g)
    | d :: _ =>
        match tape g with
        | [] => (TapeEnd, g)
        | r :: rest =>
            (Ok (nth (Z.to_nat (r mod Z.of_nat (List.length l))) l d), set_tape g rest)
        end
    end.

(** *** The canvas and the scheduler *)

Definition canvas_do (op : CanvasOp) : M unit :=
  modify (fun g => set_canvas g (canvas g ++ [op]) (next_id g)).

Definition canvas_create (mk : nat -> CanvasOp) : M (option nat) :=
  fun g => (Ok (Some (next_id g)),
            set_canvas g (canvas g ++ [mk (next_id g)]) (S (next_id g))).

Definition after (delay : Z) (cb : Callback) : M unit :=
  modify (fun g => set_scheduled g (scheduled g ++ [(delay, cb)])).

(** Modelled from the spec: [Game.stop] of [gamelib], which is not among
    the sources.  The orchestrator stops the simulation; stopping is
    idempotent and suppresses every future tick. *)
Definition stop : M unit := modify (fun g => set_stopped g true).

(** ** Terminal notifications ([TurtleAdventureGame.game_over_win],
    [TurtleAdventureGame.game_over_lose]) *)

Definition half (n : Z) : R := IZR n / 2.

Definition game_over_win : M unit :=
  stop ;;
  g <- get ;;
  _ <- canvas_create (fun id =>
         create_text id (half (screen_width g)) (half (screen_height g))
                     "You Win" "green") ;;
  ret tt.

Definition game_over_lose : M unit :=
  stop ;;
  g <- get ;;
  _ <- canvas_create (fun id =>
         create_text id (half (screen_width g)) (half (screen_height g))
                     "You Lose" "red") ;;
  ret tt.

(** ** Waypoint *)

Definition Waypoint_new : Waypoint :=
  {| wp_id1 := None; wp_id2 := None; wp_active := false; wp_x := 0; wp_y := 0 |}.

Definition Waypoint_create : M unit :=
  id1 <- canvas_create (fun id => create_line id "green" 2) ;;
  id2 <- canvas_create (fun id => create_line id "green" 2) ;;
  modify (fun g => let w := waypoint g in
    set_waypoint g (mkWaypoint id1 id2 (wp_active w) (wp_x w) (wp_y w))).

Definition Waypoint_delete : M unit :=
  g <- get ;;
  id1 <- attribute (wp_id1 (waypoint g)) ;;
  canvas_do (canvas_delete id1) ;;
  id2 <- attribute (wp_id2 (waypoint g)) ;;
  canvas_do (canvas_delete id2).

Definition Waypoint_update : M unit := ret tt.

Definition Waypoint_render : M unit :=
  g <- get ;;
  let w := waypoint g in
  if wp_active w then
    id1 <- attribute (wp_id1 w) ;;
    canvas_do (itemconfigure id1 "state" "normal") ;;
    id2 <- attribute (wp_id2 w) ;;
    canvas_do (itemconfigure id2 "state" "normal") ;;
    canvas_do (tag_raise id1) ;;
    canvas_do (tag_raise id2) ;;
    canvas_do (coords id1 (wp_x w - 10) (wp_y w - 10) (wp_x w + 10) (wp_y w + 10)) ;;
    canvas_do (coords id2 (wp_x w - 10) (wp_y w + 10) (wp_x w + 10) (wp_y w - 10))
  else
    id1 <- attribute (wp_id1 w) ;;
    canvas_do (itemconfigure id1 "state" "hidden") ;;
    id2 <- attribute (wp_id2 w) ;;
    canvas_do (itemconfigure id2 "state" "hidden").

Definition Waypoint_activate (px py : R) : M unit :=
  modify (fun g => let w := waypoint g in
    set_waypoint g (mkWaypoint (wp_id1 w) (wp_id2 w) true px py)).

Definition Waypoint_deactivate : M unit :=
  modify (fun g => let w := waypoint g in
    set_waypoint g (mkWaypoint (wp_id1 w) (wp_id2 w) false (wp_x w) (wp_y w))).

(** ** Home *)

Definition Home_new (pos : Z * Z) (sz : Z) : Home :=
  {| home_id := None; home_size := sz; home_x := IZR (fst pos); home_y := IZR (snd pos) |}.

Definition Home_create : M unit :=
  id <- canvas_create (fun id => create_rectangle id "brown") ;;
  modify (fun g => let h := home g in
    set_home g (mkHome id (home_size h) (home_x h) (home_y h))).

Definition Home_delete : M unit :=
  g <- get ;;
  id <- attribute (home_id (home g)) ;;
  canvas_do (canvas_delete id).

Definition Home_update : M unit := ret tt.

Definition Home_render : M unit :=
  g <- get ;;
  let h := home g in
  id <- attribute (home_id h) ;;
  canvas_do (coords id
               (home_x h - half (home_size h)) (home_y h - half (home_size h))
               (home_x h + half (home_size h)) (home_y h + half (home_size h))).

Definition Home_contains (h : Home) (px py : R) : bool :=
  let x1 := home_x h - half (home_size h) in
  let x2 := home_x h + half (home_size h) in
  let y1 := home_y h - half (home_size h) in
  let y2 := home_y h + half (home_size h) in
  (Rleb x1 px && Rleb px x2) && (Rleb y1 py && Rleb py y2).

(** ** Player *)

Definition Player_new (t : RawTurtle) : Player :=
  {| player_speed := 5; player_turtle := t |}.

Definition Player_x (p : Player) : R := xcor (player_turtle p).
Definition Player_y (p : Player) : R := ycor (player_turtle p).

Definition set_turtle (t : RawTurtle) : M unit :=
  modify (fun g => set_player g (mkPlayer (player_speed (player g)) t)).

Definition Player_set_x (v : R) : M unit :=
  g <- get ;; set_turtle (setx (player_turtle (player g)) v).
Definition Player_set_y (v : R) : M unit :=
  g <- get ;; set_turtle (sety (player_turtle (player g)) v).

Definition Player_create : M unit := set_turtle RawTurtle_new.

Definition Player_delete : M unit := ret tt.

Definition Player_update : M unit :=
  g <- get ;;
  when (Home_contains (home g) (Player_x (player g)) (Player_y (player g)))
       game_over_win ;;
  g <- get ;;
  let turtle := player_turtle (player g) in
  let w := waypoint g in
  if wp_active w then
    let turtle := setheading turtle (towards turtle (wp_x w) (wp_y w)) in
    let turtle := forward turtle (player_speed (player g)) in
    set_turtle turtle ;;
    when (Rltb (distance turtle (wp_x w) (wp_y w)) (player_speed (player g)))
         Waypoint_deactivate
  else ret tt.

Definition Player_render : M unit :=
  g <- get ;;
  canvas_do (turtle_goto (Player_x (player g)) (Player_y (player g))) ;;
  canvas_do screen_update.

(** ** Enemy *)

(** [x] and [y] are assigned by whoever creates the enemy; until then they
    are 0 here. *)
Definition Enemy_new (sz : Z) (col : string) : Enemy :=
  {| x := 0; y := 0; size := sz; color := col |}.

Definition Enemy_hits_player (g : TurtleAdventureGame) (self : Enemy) : bool :=
  (Rltb (x self - half (size self)) (Player_x (player g))
   && Rltb (Player_x (player g)) (x self + half (size self)))
  &&
  (Rltb (y self - half (size self)) (Player_y (player g))
   && Rltb (Player_y (player g)) (y self + half (size self))).

Definition Enemy_render (id : option nat) (self : Enemy) : M unit :=
  canvas_do (coords id (x self - half (size self)) (y self - half (size self))
                       (x self + half (size self)) (y self + half (size self))).

Definition lose_if_hit (self : Enemy) : M unit :=
  g <- get ;; when (Enemy_hits_player g self) game_over_lose.

(** [DemoEnemy] adds nothing to [Enemy]: its [create], [update], [render]
    and [delete] do nothing, and nothing instantiates it. *)
Definition DemoEnemy_new (sz : Z) (col : string) : Enemy := Enemy_new sz col.

(** ** RandomWalkEnemy *)

Definition RandomWalkEnemy_new (sz : Z) (col : string) (speed : Z) : RandomWalkEnemy :=
  {| rw_enemy := Enemy_new sz col; rw_id := None; rw_color2 := col;
     rw_state := walk_right; rw_speed := speed |}.

Definition rw_with_state (self : RandomWalkEnemy) (s : WalkState) : RandomWalkEnemy :=
  mkRandomWalk (rw_enemy self) (rw_id self) (rw_color2 self) s (rw_speed self).
Definition rw_with_enemy (self : RandomWalkEnemy) (e : Enemy) : RandomWalkEnemy :=
  mkRandomWalk e (rw_id self) (rw_color2 self) (rw_state self) (rw_speed self).

Definition RandomWalkEnemy_create (self : RandomWalkEnemy) : M RandomWalkEnemy :=
  id <- canvas_create (fun id => create_oval id (rw_color2 self)) ;;
  ret (mkRandomWalk (rw_enemy self) id (rw_color2 self) (rw_state self) (rw_speed self)).

Definition RandomWalkEnemy_left (self : RandomWalkEnemy) : M RandomWalkEnemy :=
  if Rltb (x (rw_enemy self)) 0 then ret (rw_with_state self walk_right)
  else
    r <- randint (- rw_speed self) (rw_speed self - 4 + 1) ;;
    ret (rw_with_enemy self (set_x (rw_enemy self) (x (rw_enemy self) + IZR r))).

Definition RandomWalkEnemy_right (self : RandomWalkEnemy) : M RandomWalkEnemy :=
  g <- get ;;
  if Rltb (IZR (winfo_width g)) (x (rw_enemy self)) then ret (rw_with_state self walk_left)
  else
    r <- randint (- rw_speed self + 4) (rw_speed self + 1) ;;
    ret (rw_with_enemy self (set_x (rw_enemy self) (x (rw_enemy self) + IZR r))).

Definition RandomWalkEnemy_state (self : RandomWalkEnemy) : M RandomWalkEnemy :=
  match rw_state self with
  | walk_left => RandomWalkEnemy_left self
  | walk_right => RandomWalkEnemy_right self
  end.

Definition RandomWalkEnemy_update (self : RandomWalkEnemy) : M RandomWalkEnemy :=
  self <- RandomWalkEnemy_state self ;;
  lose_if_hit (rw_enemy self) ;;
  ret self.

Definition RandomWalkEnemy_render (self : RandomWalkEnemy) : M unit :=
  Enemy_render (rw_id self) (rw_enemy self).

(** ** ChasingEnemy *)

Definition ChasingEnemy_new (sz : Z) (col : string) (speed : Z) : ChasingEnemy :=
  {| ch_enemy := Enemy_new sz col; ch_id := None; ch_color2 := col;
     ch_xstate := x_right; ch_ystate := y_up; ch_speed := IZR speed / 3 |}.

Definition ch_with_xstate (self : ChasingEnemy) (s : XState) : ChasingEnemy :=
  mkChasing (ch_enemy self) (ch_id self) (ch_color2 self) s (ch_ystate self) (ch_speed self).
Definition ch_with_ystate (self : ChasingEnemy) (s : YState) : ChasingEnemy :=
  mkChasing (ch_enemy self) (ch_id self) (ch_color2 self) (ch_xstate self) s (ch_speed self).
Definition ch_with_enemy (self : ChasingEnemy) (e : Enemy) : ChasingEnemy :=
  mkChasing e (ch_id self) (ch_color2 self) (ch_xstate self) (ch_ystate self) (ch_speed self).

Definition ChasingEnemy_create (self : ChasingEnemy) : M ChasingEnemy :=
  id <- canvas_create (fun id => create_oval id (ch_color2 self)) ;;
  ret (mkChasing (ch_enemy self) id (ch_color2 self) (ch_xstate self) (ch_ystate self)
                 (ch_speed self)).

Definition ChasingEnemy_left (g : TurtleAdventureGame) (self : ChasingEnemy) : ChasingEnemy :=
  if Rltb (x (ch_enemy self)) (Player_x (player g)) then ch_with_xstate self x_right
  else ch_with_enemy self (set_x (ch_enemy self) (x (ch_enemy self) + - ch_speed self)).

Definition ChasingEnemy_right (g : TurtleAdventureGame) (self : ChasingEnemy) : ChasingEnemy :=
  if Rltb (Player_x (player g)) (x (ch_enemy self)) then ch_with_xstate self x_left
  else ch_with_enemy self (set_x (ch_enemy self) (x (ch_enemy self) + ch_speed self)).

Definition ChasingEnemy_up (g : TurtleAdventureGame) (self : ChasingEnemy) : ChasingEnemy :=
  if Rltb (y (ch_enemy self)) (Player_y (player g)) then ch_with_ystate self y_down
  else ch_with_enemy self (set_y (ch_enemy self) (y (ch_enemy self) + - ch_speed self)).

Definition ChasingEnemy_down (g : TurtleAdventureGame) (self : ChasingEnemy) : ChasingEnemy :=
  if Rltb (Player_y (player g)) (y (ch_enemy self)) then ch_with_ystate self y_up
  else ch_with_enemy self (set_y (ch_enemy self) (y (ch_enemy self) + ch_speed self)).

Definition ChasingEnemy_xstate (g : TurtleAdventureGame) (self : ChasingEnemy) : ChasingEnemy :=
  match ch_xstate self with
  | x_left => ChasingEnemy_left g self
  | x_right => ChasingEnemy_right g self
  end.

Definition ChasingEnemy_ystate (g : TurtleAdventureGame) (self : ChasingEnemy) : ChasingEnemy :=
  match ch_ystate self with
  | y_up => ChasingEnemy_up g self
  | y_down => ChasingEnemy_down g self
  end.

Definition ChasingEnemy_update (self : ChasingEnemy) : M ChasingEnemy :=
  g <- get ;;
  let self := ChasingEnemy_xstate g self in
  let self := ChasingEnemy_ystate g self in
  lose_if_hit (ch_enemy self) ;;
  ret self.

Definition ChasingEnemy_render (self : ChasingEnemy) : M unit :=
  Enemy_render (ch_id self) (ch_enemy self).

(** ** FencingEnemy *)

Definition FencingEnemy_new (g : TurtleAdventureGame) (sz : Z) (col : string) (speed : Z)
  : FencingEnemy :=
  {| fe_enemy := Enemy_new sz col; fe_id := None; fe_color2 := col;
     fe_state := fence_down; fe_speed := IZR speed / 4;
     home_top := home_y (home g) - half (home_size (home g)) - 20;
     home_bottom := home_y (home g) + half (home_size (home g)) + 20;
     home_left := home_x (home g) - half (home_size (home g)) - 20;
     home_right := home_x (home g) + half (home_size (home g)) + 20 |}.

Definition fe_with_state (self : FencingEnemy) (s : FenceState) : FencingEnemy :=
  mkFencing (fe_enemy self) (fe_id self) (fe_color2 self) s (fe_speed self)
            (home_top self) (home_bottom self) (home_left self) (home_right self).
Definition fe_with_enemy (self : FencingEnemy) (e : Enemy) : FencingEnemy :=
  mkFencing e (fe_id self) (fe_color2 self) (fe_state self) (fe_speed self)
            (home_top self) (home_bottom self) (home_left self) (home_right self).

Definition FencingEnemy_create (self : FencingEnemy) : M FencingEnemy :=
  id <- canvas_create (fun id => create_oval id (fe_color2 self)) ;;
  ret (mkFencing (fe_enemy self) id (fe_color2 self) (fe_state self) (fe_speed self)
                 (home_top self) (home_bottom self) (home_left self) (home_right self)).

Definition FencingEnemy_down (self : FencingEnemy) : FencingEnemy :=
  if Rleb (home_bottom self) (y (fe_enemy self)) then fe_with_state self fence_right
  else fe_with_enemy self (set_y (fe_enemy self) (y (fe_enemy self) + fe_speed self)).

Definition FencingEnemy_right (self : FencingEnemy) : FencingEnemy :=
  if Rleb (home_right self) (x (fe_enemy self)) then fe_with_state self fence_up
  else fe_with_enemy self (set_x (fe_enemy self) (x (fe_enemy self) + fe_speed self)).

Definition FencingEnemy_up (self : FencingEnemy) : FencingEnemy :=
  if Rleb (y (fe_enemy self)) (home_top self) then fe_with_state self fence_left
  else fe_with_enemy self (set_y (fe_enemy self) (y (fe_enemy self) + - fe_speed self)).

Definition FencingEnemy_left (self : FencingEnemy) : FencingEnemy :=
  if Rleb (x (fe_enemy self)) (home_left self) then fe_with_state self fence_down
  else fe_with_enemy self (set_x (fe_enemy self) (x (fe_enemy self) + - fe_speed self)).

Definition FencingEnemy_state (self : FencingEnemy) : FencingEnemy :=
  match fe_state self with
  | fence_down => FencingEnemy_down self
  | fence_right => FencingEnemy_right self
  | fence_up => FencingEnemy_up self
  | fence_left => FencingEnemy_left self
  end.

Definition FencingEnemy_update (self : FencingEnemy) : M FencingEnemy :=
  let self := FencingEnemy_state self in
  lose_if_hit (fe_enemy self) ;;
  ret self.

Definition FencingEnemy_render (self : FencingEnemy) : M unit :=
  Enemy_render (fe_id self) (fe_enemy self).

(** ** Bomb *)

Definition Bomb_new (sz : Z) : Bomb :=
  {| bomb_enemy := Enemy_new sz "grey"; bomb_id := None; bomb_timer := 0 |}.

Definition Bomb_create (self : Bomb) : M Bomb :=
  id <- canvas_create (fun id => create_oval id "grey") ;;
  ret (mkBomb (bomb_enemy self) id (bomb_timer self)).

Definition Bomb_delete (self : Bomb) : M unit :=
  canvas_do (canvas_delete (bomb_id self)).

Definition Bomb_update (self : Bomb) : M Bomb :=
  let self := mkBomb (bomb_enemy self) (bomb_id self) (bomb_timer self + 1) in
  when (20 <=? bomb_timer self)%Z
       (canvas_do (itemconfigure (bomb_id self) "fill" "red") ;;
        lose_if_hit (bomb_enemy self)) ;;
  when (21 <=? bomb_timer self)%Z (Bomb_delete self) ;;
  ret self.

Definition Bomb_render (self : Bomb) : M unit :=
  Enemy_render (bomb_id self) (bomb_enemy self).

(** ** DeDestroyerEnemy: construction *)

Definition DeDestroyerEnemy_new (sz : Z) (col : string) (speed : Z) : DeDestroyerEnemy :=
  {| dd_enemy := Enemy_new sz col; dd_id := None; dd_id2 := None; dd_id3 := None;
     dd_color2 := col; dd_timer := 0; distance_barrel := 50 |}.

Definition DeDestroyerEnemy_create (self : DeDestroyerEnemy) : M DeDestroyerEnemy :=
  id <- canvas_create (fun id => create_rectangle id (dd_color2 self)) ;;
  id2 <- canvas_create (fun id => create_line id "orange" 3) ;;
  ret (mkDeDestroyer (dd_enemy self) id id2 (dd_id3 self) (dd_color2 self)
                     (dd_timer self) (distance_barrel self)).

(** ** The element collection *)

(** Create an entity: its [create] method, which allocates its visual
    representation. *)
Definition create_element (e : GameElement) : M GameElement :=
  match e with
  | TheWaypoint => Waypoint_create ;; ret e
  | TheHome => Home_create ;; ret e
  | ThePlayer => Player_create ;; ret e
  | ARandomWalkEnemy w => w <- RandomWalkEnemy_create w ;; ret (ARandomWalkEnemy w)
  | AChasingEnemy c => c <- ChasingEnemy_create c ;; ret (AChasingEnemy c)
  | AFencingEnemy f => f <- FencingEnemy_create f ;; ret (AFencingEnemy f)
  | ADeDestroyerEnemy d => d <- DeDestroyerEnemy_create d ;; ret (ADeDestroyerEnemy d)
  | ABomb b => b <- Bomb_create b ;; ret (ABomb b)
  end.

(** Modelled from the spec: [Game.add_element] of [gamelib], which is not
    among the sources.  Registering an entity creates it and puts it last
    in the orchestrator's collection, which is kept in registration
    order. *)
Definition add_element (e : GameElement) : M unit :=
  e <- create_element e ;;
  modify (fun g => set_elements g (elements g ++ [e])).

(** ** DeDestroyerEnemy: behaviour *)

Definition DeDestroyerEnemy_update (self : DeDestroyerEnemy) : M DeDestroyerEnemy :=
  let self := mkDeDestroyer (dd_enemy self) (dd_id self) (dd_id2 self) (dd_id3 self)
                            (dd_color2 self) (dd_timer self + 1) (distance_barrel self) in
  when (dd_timer self mod 20 =? 0)%Z
       (g <- get ;;
        let bomb := Bomb_new (level g * 30) in
        rx <- randint (-50) 51 ;;
        let bomb := mkBomb (set_x (bomb_enemy bomb) (Player_x (player g) + IZR rx))
                           (bomb_id bomb) (bomb_timer bomb) in
        ry <- randint (-50) 51 ;;
        let bomb := mkBomb (set_y (bomb_enemy bomb) (Player_y (player g) + IZR ry))
                           (bomb_id bomb) (bomb_timer bomb) in
        add_element (ABomb bomb)) ;;
  ret self.

Definition DeDestroyerEnemy_render (self : DeDestroyerEnemy) : M unit :=
  Enemy_render (dd_id self) (dd_enemy self) ;;
  if (dd_timer self mod 20 =? 0)%Z then
    g <- get ;;
    canvas_do (itemconfigure (dd_id2 self) "fill" "orange") ;;
    canvas_do (coords (dd_id2 self) (x (dd_enemy self)) (y (dd_enemy self))
                      (Player_x (player g)) (Player_y (player g)))
  else canvas_do (itemconfigure (dd_id2 self) "fill" "white").

(** ** EnemyGenerator *)

(** The dictionary [enemy_dict], in insertion order. *)
Definition catalog : list (EnemyClass * (string * string)) :=
  [ (RandomWalkEnemy_cls, ("random", "purple"));
    (ChasingEnemy_cls, ("random", "red"));
    (FencingEnemy_cls, ("home", "green"));
    (DeDestroyerEnemy_cls, ("random", "black")) ]%string.

Definition EnemyGenerator_new (lvl : Z) : M EnemyGenerator :=
  after 100 cb_create_enemy ;;
  ret {| gen_level := lvl; gen_speed := lvl * 3; enemy_dict := catalog |}.

Definition EnemyClass_eqb (a b : EnemyClass) : bool :=
  match a, b with
  | RandomWalkEnemy_cls, RandomWalkEnemy_cls
  | ChasingEnemy_cls, ChasingEnemy_cls
  | FencingEnemy_cls, FencingEnemy_cls
  | DeDestroyerEnemy_cls, DeDestroyerEnemy_cls => true
  | _, _ => false
  end.

(** [enemy_dict[k]], for a key of the dictionary. *)
Fixpoint dict_get (d : list (EnemyClass * (string * string))) (k : EnemyClass)
  : string * string :=
  match d with
  | [] => (EmptyString, EmptyString)
  | (k', v) :: d' => if EnemyClass_eqb k k' then v else dict_get d' k
  end.

(** The enemy under construction in [create_enemy]: an object of the
    chosen class whose [x] and [y] are then assigned. *)
Definition instantiate (g : TurtleAdventureGame) (cls : EnemyClass) (sz : Z) (col : string)
  (speed : Z) : GameElement :=
  match cls with
  | RandomWalkEnemy_cls => ARandomWalkEnemy (RandomWalkEnemy_new sz col speed)
  | ChasingEnemy_cls => AChasingEnemy (ChasingEnemy_new sz col speed)
  | FencingEnemy_cls => AFencingEnemy (FencingEnemy_new g sz col speed)
  | DeDestroyerEnemy_cls => ADeDestroyerEnemy (DeDestroyerEnemy_new sz col speed)
  end.

Definition element_enemy (e : GameElement) : option Enemy :=
  match e with
  | ARandomWalkEnemy w => Some (rw_enemy w)
  | AChasingEnemy c => Some (ch_enemy c)
  | AFencingEnemy f => Some (fe_enemy f)
  | ADeDestroyerEnemy d => Some (dd_enemy d)
  | ABomb b => Some (bomb_enemy b)
  | _ => None
  end.

Definition element_with_enemy (e : GameElement) (b : Enemy) : GameElement :=
  match e with
  | ARandomWalkEnemy w => ARandomWalkEnemy (rw_with_enemy w b)
  | AChasingEnemy c => AChasingEnemy (ch_with_enemy c b)
  | AFencingEnemy f => AFencingEnemy (fe_with_enemy f b)
  | ADeDestroyerEnemy d =>
      ADeDestroyerEnemy (mkDeDestroyer b (dd_id d) (dd_id2 d) (dd_id3 d) (dd_color2 d)
                                       (dd_timer d) (distance_barrel d))
  | ABomb bm => ABomb (mkBomb b (bomb_id bm) (bomb_timer bm))
  | _ => e
  end.

Definition assign_xy (e : GameElement) (vx vy : R) : GameElement :=
  match element_enemy e with
  | Some b => element_with_enemy e (set_y (set_x b vx) vy)
  | None => e
  end.

(** The loop [while 40 < enemy.x < 60: enemy.x = random.randint(0, width)],
    by recursion on the draws still on the tape. *)
Fixpoint reroll (width : Z) (ex : Z) (draws : list Z) : result Z * list Z :=
  if ((40 <? ex) && (ex <? 60))%Z then
    if (width <? 0)%Z then (Raise ValueError, draws)
    else match draws with
         | [] => (TapeEnd, draws)
         | r :: rest => reroll width (0 + r mod (width - 0 + 1))%Z rest
         end
  else (Ok ex, draws).

Definition reroll_x (width : Z) (ex : Z) : M Z :=
  fun g => let (r, rest) := reroll width ex (tape g) in (r, set_tape g rest).

(** [int(4000 / level)]: the quotient truncated toward zero. *)
Definition spawn_delay (lvl : Z) : M Z :=
  if (lvl =? 0)%Z then raise ZeroDivisionError else ret (Z.quot 4000 lvl).

Definition EnemyGenerator_create_enemy : M unit :=
  g <- get ;;
  let gen := enemy_generator g in
  random_enemy <- random_choice (map fst (enemy_dict gen)) ;;
  let enemy := instantiate g random_enemy 20 (snd (dict_get (enemy_dict gen) random_enemy))
                           (gen_speed gen) in
  let position := fst (dict_get (enemy_dict gen) random_enemy) in
  enemy <-
    (if String.eqb position "home" then
       ret (assign_xy enemy (home_x (home g) - half (home_size (home g)) - 20)
                            (home_y (home g) - half (home_size (home g)) - 20))
     else
       ex <- randint 0 (screen_width g) ;;
       ey <- randint 0 (screen_height g) ;;
       ex <- reroll_x (screen_width g) ex ;;
       ret (assign_xy enemy (IZR ex) (IZR ey))) ;;
  add_element enemy ;;
  g <- get ;;
  delay <- spawn_delay (level g) ;;
  after delay cb_create_enemy.

(** ** TurtleAdventureGame *)

(** The attributes [__init__] assigns; the waypoint, home, player and
    generator are only declared there and are assigned by [init_game]. *)
Definition TurtleAdventureGame_new (width height lvl winfo : Z) : TurtleAdventureGame :=
  {| level := lvl; screen_width := width; screen_height := height;
     waypoint := Waypoint_new; home := Home_new (0, 0)%Z 0;
     player := Player_new RawTurtle_new;
     enemies := [];
     enemy_generator := mkGenerator 0 0 [];
     elements := []; stopped := false;
     canvas := []; next_id := 1%nat; winfo_width := winfo;
     scheduled := []; tape := [] |}.

(** [TurtleScreen.setworldcoordinates] of Python's [turtle]: it scales
    the canvas by dividing its width by [urx - llx] and its height by
    [ury - lly], and raises [ZeroDivisionError] when a span is 0.  The
    scales themselves are not modelled. *)
Definition setworldcoordinates (llx lly urx ury : Z) : M unit :=
  if ((urx - llx =? 0) || (ury - lly =? 0))%Z then raise ZeroDivisionError
  else ret tt.

Definition init_game : M unit :=
  g <- get ;;
  let turtle := RawTurtle_new in
  setworldcoordinates 0 (screen_height g - 1) (screen_width g - 1) 0 ;;
  modify (fun g => set_waypoint g Waypoint_new) ;;
  add_element TheWaypoint ;;
  modify (fun g => set_home g
            (Home_new (screen_width g - 100, screen_height g / 2)%Z 20)) ;;
  add_element TheHome ;;
  modify (fun g => set_player g (Player_new turtle)) ;;
  add_element ThePlayer ;;
  gen <- EnemyGenerator_new (level g) ;;
  modify (fun g => set_enemy_generator g gen) ;;
  Player_set_x 50 ;;
  Player_set_y (IZR (screen_height g / 2)).

(** Modelled from the spec: the constructor of the base class [Game] of
    [gamelib], which is not among the sources, starts from an empty
    element collection, not stopped, and calls [init_game]. *)
Definition TurtleAdventureGame_init (width height lvl winfo : Z)
  : result unit * TurtleAdventureGame :=
  init_game (TurtleAdventureGame_new width height lvl winfo).

(** The game [init_game] leaves behind when it completes, written out. *)
Definition initial_game (width height lvl winfo : Z) : TurtleAdventureGame :=
  {| level := lvl; screen_width := width; screen_height := height;
     waypoint := mkWaypoint (Some 1%nat) (Some 2%nat) false 0 0;
     home := mkHome (Some 3%nat) 20 (IZR (width - 100)) (IZR (height / 2));
     player := mkPlayer 5 (mkTurtle (mkVec 50 (IZR (height / 2))) (mkVec 1 0));
     enemies := [];
     enemy_generator := mkGenerator lvl (lvl * 3) catalog;
     elements := [TheWaypoint; TheHome; ThePlayer];
     stopped := false;
     canvas := [create_line 1 "green" 2; create_line 2 "green" 2;
                create_rectangle 3 "brown"];
     next_id := 4%nat; winfo_width := winfo;
     scheduled := [(100%Z, cb_create_enemy)]; tape := [] |}.

Definition add_enemy (enemy : GameElement) : M unit :=
  modify (fun g => set_enemies g (enemies g ++ [enemy])) ;;
  add_element enemy.

(** ** One tick of the orchestrator *)

Definition update_element (e : GameElement) : M GameElement :=
  match e with
  | TheWaypoint => Waypoint_update ;; ret e
  | TheHome => Home_update ;; ret e
  | ThePlayer => Player_update ;; ret e
  | ARandomWalkEnemy w => w <- RandomWalkEnemy_update w ;; ret (ARandomWalkEnemy w)
  | AChasingEnemy c => c <- ChasingEnemy_update c ;; ret (AChasingEnemy c)
  | AFencingEnemy f => f <- FencingEnemy_update f ;; ret (AFencingEnemy f)
  | ADeDestroyerEnemy d => d <- DeDestroyerEnemy_update d ;; ret (ADeDestroyerEnemy d)
  | ABomb b => b <- Bomb_update b ;; ret (ABomb b)
  end.

Definition render_element (e : GameElement) : M unit :=
  match e with
  | TheWaypoint => Waypoint_render
  | TheHome => Home_render
  | ThePlayer => Player_render
  | ARandomWalkEnemy w => RandomWalkEnemy_render w
  | AChasingEnemy c => ChasingEnemy_render c
  | AFencingEnemy f => FencingEnemy_render f
  | ADeDestroyerEnemy d => DeDestroyerEnemy_render d
  | ABomb b => Bomb_render b
  end.

Fixpoint replace_nth {A} (n : nat) (l : list A) (a : A) : list A :=
  match n, l with
  | _, [] => []
  | O, _ :: l' => a :: l'
  | S n', b :: l' => b :: replace_nth n' l' a
  end.

(** Modelled from the spec: the body of the loop of [gamelib]'s [Game],
    which is not among the sources: [update] then [render] on the entity
    registered at place [i]. *)
Definition tick_element (i : nat) : M unit :=
  g <- get ;;
  match nth_error (elements g) i with
  | None => ret tt
  | Some e =>
      e <- update_element e ;;
      modify (fun g => set_elements g (replace_nth i (elements g) e)) ;;
      render_element e
  end.

Fixpoint for_each (l : list nat) (body : nat -> M unit) : M unit :=
  match l with
  | [] => ret tt
  | i :: l' => body i ;; for_each l' body
  end.

(** Modelled from the spec: the loop of [gamelib]'s [Game], which is not
    among the sources.  Unless the game is stopped, a tick calls [update]
    then [render] on every entity of the collection, in registration
    order; entities registered during the tick are first updated in the
    next one.  Stopping does not interrupt the tick in progress. *)
Definition tick : M unit :=
  g <- get ;;
  if stopped g then ret tt
  else for_each (seq 0 (List.length (elements g))) tick_element.

(** ** What can happen to a game

    A tick of the orchestrator, a pointer click (the canvas binding calls
    [Waypoint.activate]), a timer firing the scheduled [create_enemy], or
    the window system resizing the canvas, which changes what
    [canvas.winfo_width()] answers from then on.  A tick and a firing
    come with the random draws they may consume. *)

Inductive Event :=
| ev_tick (draws : list Z)
| ev_click (px py : R)
| ev_timer (draws : list Z)
| ev_resize (width : Z).

Definition fire_timer : M unit :=
  g <- get ;;
  match scheduled g with
  | [] => ret tt
  | (_, cb_create_enemy) :: rest =>
      modify (fun g => set_scheduled g rest) ;;
      EnemyGenerator_create_enemy
  end.

Definition handle (ev : Event) : M unit :=
  match ev with
  | ev_tick draws => modify (fun g => set_tape g draws) ;; tick
  | ev_click px py => Waypoint_activate px py
  | ev_timer draws => modify (fun g => set_tape g draws) ;; fire_timer
  | ev_resize width => modify (fun g => set_winfo_width g width)
  end.

Fixpoint play (evs : list Event) (g : TurtleAdventureGame) : TurtleAdventureGame :=
  match evs with
  | [] => g
  | ev :: evs' => play evs' (run (handle ev) g)
  end.

(** The states a game goes through: from a freshly constructed game,
    after any sequence of events.  An event whose handler raises leaves
    the game as mutated so far, and the game goes on from there. *)
Definition reachable (g : TurtleAdventureGame) : Prop :=
  exists width height lvl winfo evs,
    g = play evs (snd (TurtleAdventureGame_init width height lvl winfo)).

(** * Notions used in the statements *)

(** A computation respects a relation [R] between games when the game it
    leaves is always related to the game it started from. *)
Definition respects (R : TurtleAdventureGame -> TurtleAdventureGame -> Prop)
  {A} (m : M A) : Prop :=
  forall g, R g (run m g).

(** Every entry of the collection is still there, at its place. *)
Definition keeps_entries (g g' : TurtleAdventureGame) : Prop :=
  forall i e, nth_error (elements g) i = Some e -> nth_error (elements g') i = Some e.

(** Every bomb of the collection is still there, at its place, its timer
    no lower than it was. *)
Definition keeps_bombs (g g' : TurtleAdventureGame) : Prop :=
  forall i b,
    nth_error (elements g) i = Some (ABomb b) ->
    exists b', nth_error (elements g') i = Some (ABomb b')
               /\ (bomb_timer b <= bomb_timer b')%Z.

(** The banner text a terminal notification draws. *)
Definition banner (g : TurtleAdventureGame) (text fill : string) : CanvasOp :=
  create_text (next_id g) (half (screen_width g)) (half (screen_height g)) text fill.

(** The kind [random.choice] picks from the dictionary's keys on draw [c]. *)
Definition chosen_class (c : Z) : EnemyClass :=
  nth (Z.to_nat (c mod 4)) (map fst catalog) RandomWalkEnemy_cls.

(** The band of x the scheduler re-rolls. *)
Definition in_band (n : Z) : Prop := (40 < n < 60)%Z.

(** The patroller as [create_enemy] builds it under the ["home"] rule:
    constructed from the game's home, then placed at the top-left corner
    of its rectangle.  [id] is the canvas item [create] gives it. *)
Definition FencingEnemy_spawned (g : TurtleAdventureGame) (speed : Z) (id : option nat)
  : FencingEnemy :=
  let f := FencingEnemy_new g 20 "green" speed in
  mkFencing (set_y (set_x (fe_enemy f) (home_x (home g) - half (home_size (home g)) - 20))
                   (home_y (home g) - half (home_size (home g)) - 20))
            id (fe_color2 f) (fe_state f) (fe_speed f)
            (home_top f) (home_bottom f) (home_left f) (home_right f).

(** [n] ticks of a patroller. *)
Fixpoint patrol (n : nat) (f : FencingEnemy) : FencingEnemy :=
  match n with
  | O => f
  | S n' => patrol n' (FencingEnemy_state f)
  end.


(** The route of a patroller: its speed and the four sides of its
    rectangle, fixed at construction. *)
Definition same_route (f f' : FencingEnemy) : Prop :=
  fe_speed f' = fe_speed f
  /\ home_top f' = home_top f /\ home_bottom f' = home_bottom f
  /\ home_left f' = home_left f /\ home_right f' = home_right f.


(** An entity whose [create] has run: the canvas items it draws with
    exist. *)
Definition created (g : TurtleAdventureGame) (e : GameElement) : Prop :=
  match e with
  | TheWaypoint => wp_id1 (waypoint g) <> None /\ wp_id2 (waypoint g) <> None
  | TheHome => home_id (home g) <> None
  | ThePlayer => True
  | ARandomWalkEnemy w => rw_id w <> None
  | AChasingEnemy c => ch_id c <> None
  | AFencingEnemy f => fe_id f <> None
  | ADeDestroyerEnemy d => dd_id d <> None /\ dd_id2 d <> None
  | ABomb b => bomb_id b <> None
  end.

(** What stays of an entity for as long as it is in the game: its kind,
    its size, colour, speed and canvas item; a walker also keeps its row,
    a patroller its route; a bombardier and a bomb stay where they are
    and their timers never go back. *)
Definition same_entity (e e' : GameElement) : Prop :=
  match e, e' with
  | TheWaypoint, TheWaypoint => True
  | TheHome, TheHome => True
  | ThePlayer, ThePlayer => True
  | ARandomWalkEnemy a, ARandomWalkEnemy b =>
      size (rw_enemy b) = size (rw_enemy a) /\ color (rw_enemy b) = color (rw_enemy a)
      /\ y (rw_enemy b) = y (rw_enemy a)
      /\ rw_speed b = rw_speed a /\ rw_id b = rw_id a
  | AChasingEnemy a, AChasingEnemy b =>
      size (ch_enemy b) = size (ch_enemy a) /\ color (ch_enemy b) = color (ch_enemy a)
      /\ ch_speed b = ch_speed a /\ ch_id b = ch_id a
  | AFencingEnemy a, AFencingEnemy b =>
      size (fe_enemy b) = size (fe_enemy a) /\ color (fe_enemy b) = color (fe_enemy a)
      /\ fe_id b = fe_id a /\ same_route a b
  | ADeDestroyerEnemy a, ADeDestroyerEnemy b =>
      dd_enemy b = dd_enemy a /\ dd_id b = dd_id a /\ dd_id2 b = dd_id2 a
      /\ (dd_timer a <= dd_timer b)%Z
  | ABomb a, ABomb b =>
      bomb_enemy b = bomb_enemy a /\ bomb_id b = bomb_id a
      /\ (bomb_timer a <= bomb_timer b)%Z
  | _, _ => False
  end.

(** Every entity of the collection is still there, at its place. *)
Definition keeps_entities (g g' : TurtleAdventureGame) : Prop :=
  forall i e,
    nth_error (elements g) i = Some e ->
    exists e', nth_error (elements g') i = Some e' /\ same_entity e e'.


(** The bomb a bombardier throws on draws [rx], [ry], before [create]
    gives it its canvas item. *)
Definition thrown_bomb (g : TurtleAdventureGame) (rx ry : Z) : Bomb :=
  mkBomb (mkEnemy (Player_x (player g) + IZR (-50 + rx mod 102))
                  (Player_y (player g) + IZR (-50 + ry mod 102))
                  (level g * 30) "grey")
         None 0.


(** The game after [n] updates of the player. *)
Fixpoint Player_updates (n : nat) (g : TurtleAdventureGame) : TurtleAdventureGame :=
  match n with
  | O => g
  | S n' => Player_updates n' (run Player_update g)
  end.

(** How far the player is from the waypoint. *)
Definition to_waypoint (g : TurtleAdventureGame) : R :=
  distance (player_turtle (player g)) (wp_x (waypoint g)) (wp_y (waypoint g)).

(** [n] updates of a chaser while the player rests where it is in [g]. *)
Fixpoint chase (g : TurtleAdventureGame) (n : nat) (c : ChasingEnemy) : ChasingEnemy :=
  match n with
  | O => c
  | S n' => chase g n' (ChasingEnemy_ystate g (ChasingEnemy_xstate g c))
  end.

(** One axis of a chaser, seen alone: whether it travels toward larger
    coordinates, and its coordinate.  [axis_step p s] is what an update
    does on that axis when the player's coordinate is [p] and the speed
    is [s]; the two axes of a chaser both follow it. *)
Definition axis_step (p s : R) (st : bool * R) : bool * R :=
  if fst st then
    if Rltb p (snd st) then (false, snd st) else (true, snd st + s)
  else
    if Rltb (snd st) p then (true, snd st) else (false, snd st + - s).

Fixpoint axis_steps (p s : R) (n : nat) (st : bool * R) : bool * R :=
  match n with
  | O => st
  | S n' => axis_steps p s n' (axis_step p s st)
  end.

Definition x_axis (c : ChasingEnemy) : bool * R :=
  (match ch_xstate c with x_right => true | x_left => false end, x (ch_enemy c)).

Definition y_axis (c : ChasingEnemy) : bool * R :=
  (match ch_ystate c with y_down => true | y_up => false end, y (ch_enemy c)).

(** ** Concrete games and agents used as examples *)

Definition expired_bomb : Bomb := mkBomb (mkEnemy 50 250 30 "grey") (Some 4%nat) 21.

(** A level-1 game on an 800 x 500 screen, the player at its start
    position (50, 250), and a bomb lying there whose timer is already 21:
    it has gone through its self-destruct tick. *)
Definition game_with_expired_bomb : TurtleAdventureGame :=
  let g0 := initial_game 800 500 1 800 in
  set_canvas (set_elements g0 (elements g0 ++ [ABomb expired_bomb]))
             (canvas g0 ++ [create_oval 4 "grey"; canvas_delete (Some 4%nat)]) 5.

(** A level-1 chaser at x = 100 moving right, the player standing a
    quarter of a unit further right. *)
Definition close_chaser : ChasingEnemy :=
  ch_with_enemy (ChasingEnemy_new 20 "red" 3) (mkEnemy 100 250 20 "red").

Definition game_with_player_at (px py : R) : TurtleAdventureGame :=
  set_player (initial_game 800 500 1 800)
             (mkPlayer 5 (mkTurtle (mkVec px py) (mkVec 1 0))).

(** A level-1 game in which two bombs lie on the player, both one tick
    before arming. *)
Definition two_bombs_game : TurtleAdventureGame :=
  let g0 := initial_game 800 500 1 800 in
  set_canvas
    (set_elements g0
       (elements g0 ++ [ABomb (mkBomb (mkEnemy 50 250 30 "grey") (Some 4%nat) 19);
                        ABomb (mkBomb (mkEnemy 55 245 30 "grey") (Some 5%nat) 19)]))
    (canvas g0 ++ [create_oval 4 "grey"; create_oval 5 "grey"]) 6.

Definition is_banner (op : CanvasOp) : bool :=
  match op with
  | create_text _ _ _ _ _ => true
  | _ => false
  end.

(** A level-1 game that has just been lost. *)
Definition lost_game : TurtleAdventureGame :=
  run game_over_lose (snd (TurtleAdventureGame_init 800 500 1 800)).




(** A level-3 game after its first spawn, whose draws choose a random
    walker and x = 40. *)
Definition first_spawn_at_40 : TurtleAdventureGame :=
  run (handle (ev_timer [0; 40; 120]%Z)) (initial_game 800 500 3 800).

(** A level-3 game about to spawn: the draws choose a random walker, a
    first x of 50, y = 120, and 40 for the re-roll. *)
Definition spawn_with_reroll : TurtleAdventureGame :=
  set_tape (initial_game 800 500 3 800) [0; 50; 120; 40]%Z.

(** A level-1 game with the waypoint set three units right and four
    units down from the player. *)
Definition seeking_game : TurtleAdventureGame :=
  run (Waypoint_activate 53 254) (initial_game 800 500 1 800).



(** A short play: a spawn, a click, a tick. *)
Definition short_play : TurtleAdventureGame :=
  play [ev_timer [1; 300; 120]%Z; ev_click 400 120; ev_tick []]
       (snd (TurtleAdventureGame_init 800 500 1 800)).

(** * Properties *)

(** ** Comparisons *)

Lemma Rltb_true (a b : R) : Rltb a b = true <-> a < b.
Proof. unfold Rltb; destruct (Rlt_dec a b); split; intros; try discriminate; tauto. Qed.

Lemma Rltb_false (a b : R) : Rltb a b = false <-> b <= a.
Proof. unfold Rltb; destruct (Rlt_dec a b); split; intros; try discriminate; try lra; auto. Qed.

Lemma Rleb_true (a b : R) : Rleb a b = true <-> a <= b.
Proof. unfold Rleb; destruct (Rle_dec a b); split; intros; try discriminate; tauto. Qed.

Lemma Rleb_false (a b : R) : Rleb a b = false <-> b < a.
Proof. unfold Rleb; destruct (Rle_dec a b); split; intros; try discriminate; try lra; auto. Qed.



Ltac rdecide_in H :=
  repeat match type of H with
    | context [Rltb ?a ?b] =>
        first [ replace (Rltb a b) with true in H by (symmetry; apply Rltb_true; lra)
              | replace (Rltb a b) with false in H by (symmetry; apply Rltb_false; lra) ]
    | context [Rleb ?a ?b] =>
        first [ replace (Rleb a b) with true in H by (symmetry; apply Rleb_true; lra)
              | replace (Rleb a b) with false in H by (symmetry; apply Rleb_false; lra) ]
    end.

(** Replace a closed term of the goal by its value. *)
Ltac evaluate t :=
  let v := fresh "v" in
  let E := fresh "E" in
  remember t as v eqn:E;
  repeat (progress
            (lazy -[Rltb Rleb Rplus Rminus Rmult Rdiv Ropp Rinv IZR sqrt Rsqr Rabs] in E;
             rdecide_in E));
  subst v.

(** ** Running computations *)

Lemma outcome_bind {A B} (m : M A) (k : A -> M B) (g : TurtleAdventureGame) (a : A) :
  outcome m g = Ok a -> outcome (bind m k) g = outcome (k a) (run m g).
Proof. unfold run, outcome, bind; destruct (m g) as [[a'| |] g']; simpl; congruence. Qed.

(** ** Frame reasoning: what no operation of a game touches

    A relation between the game before and after that is satisfied by
    every attribute assignment the handlers make (they never assign
    [enemies] or [enemy_generator], they assign [elements] only to
    append an entity or to store an updated entity in its place, [home]
    only to record its canvas item, [player] only to move its turtle and
    [stopped] only to set it) and by a change of the canvas width is
    satisfied by every event handler. *)

Create HintDb frame.

Section Frame.
Variable R : TurtleAdventureGame -> TurtleAdventureGame -> Prop.
Hypothesis R_refl : forall g, R g g.
Hypothesis R_trans : forall a b c, R a b -> R b c -> R a c.
Hypothesis R_waypoint : forall g v, R g (set_waypoint g v).
Hypothesis R_home :
  forall g id, R g (set_home g (mkHome id (home_size (home g)) (home_x (home g))
                                       (home_y (home g)))).
Hypothesis R_player :
  forall g t, R g (set_player g (mkPlayer (player_speed (player g)) t)).
Hypothesis R_append : forall g e, R g (set_elements g (elements g ++ [e])).
Hypothesis R_replace :
  forall g i e, R g (set_elements g (replace_nth i (elements g) e)).
Hypothesis R_stopped : forall g, R g (set_stopped g true).
Hypothesis R_canvas : forall g v n, R g (set_canvas g v n).
Hypothesis R_scheduled : forall g v, R g (set_scheduled g v).
Hypothesis R_tape : forall g v, R g (set_tape g v).
Hypothesis R_winfo_width : forall g v, R g (set_winfo_width g v).

Lemma respects_ret {A} (a : A) : respects R (ret a).
Proof. intro g; apply R_refl. Qed.

Lemma respects_raise {A} (e : exn) : respects R (@raise A e).
Proof. intro g; apply R_refl. Qed.

Lemma respects_get : respects R get.
Proof. intro g; apply R_refl. Qed.

Lemma respects_bind {A B} (m : M A) (k : A -> M B) :
  respects R m -> (forall a, respects R (k a)) -> respects R (bind m k).
Proof.
  intros Hm Hk g. specialize (Hm g). unfold run, bind in *.
  destruct (m g) as [[a| |] g'] eqn:E; simpl in *; auto.
  eapply R_trans; [exact Hm | apply (Hk a g')].
Qed.

Lemma respects_when (b : bool) (m : M unit) : respects R m -> respects R (when b m).
Proof. destruct b; simpl; auto using respects_ret. Qed.

Lemma respects_randint (a b : Z) : respects R (randint a b).
Proof.
  intro g; unfold run, randint.
  destruct (b <? a)%Z; simpl; auto. destruct (tape g); simpl; auto.
Qed.

Lemma respects_random_choice {A} (l : list A) : respects R (random_choice l).
Proof.
  intro g; unfold run, random_choice.
  destruct l; simpl; auto. destruct (tape g); simpl; auto.
Qed.

Lemma respects_reroll_x (w ex : Z) : respects R (reroll_x w ex).
Proof.
  intro g; unfold run, reroll_x. destruct (reroll w ex (tape g)); simpl; auto.
Qed.

Lemma respects_canvas_do (op : CanvasOp) : respects R (canvas_do op).
Proof. intro g; apply R_canvas. Qed.

Lemma respects_canvas_create (mk : nat -> CanvasOp) : respects R (canvas_create mk).
Proof. intro g; apply R_canvas. Qed.

Lemma respects_after (d : Z) (cb : Callback) : respects R (after d cb).
Proof. intro g; apply R_scheduled. Qed.

Lemma respects_stop : respects R stop.
Proof. intro g; apply R_stopped. Qed.

Lemma respects_attribute (a : option nat) : respects R (attribute a).
Proof. intro g; destruct a; apply R_refl. Qed.

Hint Resolve respects_ret respects_raise respects_get respects_when
  respects_randint respects_random_choice respects_reroll_x respects_canvas_do
  respects_canvas_create respects_after respects_stop respects_attribute : frame.

(** Walk down a computation: binds, conditionals and calls already
    known to respect [R]. *)
Ltac frame :=
  repeat (intros;
    match goal with
    | |- respects R (bind _ _) => apply respects_bind
    | |- respects R (when _ _) => apply respects_when
    | |- respects R (modify _) => let g := fresh "g" in intro g; unfold run, modify; simpl
    | |- respects R (if ?b then _ else _) => destruct b
    | |- respects R (match ?v with _ => _ end) => destruct v
    | |- respects R _ => solve [auto with frame]
    | |- R _ _ => solve [auto]
    end).

Lemma respects_game_over_win : respects R game_over_win.
Proof. unfold game_over_win; frame. Qed.

Lemma respects_game_over_lose : respects R game_over_lose.
Proof. unfold game_over_lose; frame. Qed.

Hint Resolve respects_game_over_win respects_game_over_lose : frame.

Lemma respects_lose_if_hit (e : Enemy) : respects R (lose_if_hit e).
Proof. unfold lose_if_hit; frame. Qed.

Lemma respects_Enemy_render (id : option nat) (e : Enemy) : respects R (Enemy_render id e).
Proof. unfold Enemy_render; frame. Qed.

Hint Resolve respects_lose_if_hit respects_Enemy_render : frame.

Lemma respects_create_element (e : GameElement) : respects R (create_element e).
Proof.
  unfold create_element, Waypoint_create, Home_create, Player_create, set_turtle,
    RandomWalkEnemy_create, ChasingEnemy_create, FencingEnemy_create,
    DeDestroyerEnemy_create, Bomb_create; frame.
Qed.

Hint Resolve respects_create_element : frame.

Lemma respects_add_element (e : GameElement) : respects R (add_element e).
Proof. unfold add_element; frame. Qed.

Hint Resolve respects_add_element : frame.

Lemma respects_update_element (e : GameElement) : respects R (update_element e).
Proof.
  unfold update_element, Waypoint_update, Home_update, Player_update, set_turtle,
    Waypoint_deactivate, RandomWalkEnemy_update, RandomWalkEnemy_state,
    RandomWalkEnemy_left, RandomWalkEnemy_right, ChasingEnemy_update,
    FencingEnemy_update, DeDestroyerEnemy_update, Bomb_update, Bomb_delete; frame.
Qed.

Lemma respects_render_element (e : GameElement) : respects R (render_element e).
Proof.
  unfold render_element, Waypoint_render, Home_render, Player_render,
    RandomWalkEnemy_render, ChasingEnemy_render, FencingEnemy_render,
    DeDestroyerEnemy_render, Bomb_render; frame.
Qed.

Hint Resolve respects_update_element respects_render_element : frame.

Lemma respects_tick_element (i : nat) : respects R (tick_element i).
Proof. unfold tick_element; frame. Qed.

Hint Resolve respects_tick_element : frame.

Lemma respects_for_each (l : list nat) : respects R (for_each l tick_element).
Proof. induction l; simpl; frame. Qed.

Hint Resolve respects_for_each : frame.

Lemma respects_tick : respects R tick.
Proof. unfold tick; frame. Qed.

Lemma respects_create_enemy : respects R EnemyGenerator_create_enemy.
Proof. unfold EnemyGenerator_create_enemy, spawn_delay; frame. Qed.

Hint Resolve respects_tick respects_create_enemy : frame.

Lemma respects_handle (ev : Event) : respects R (handle ev).
Proof. unfold handle, fire_timer, Waypoint_activate; frame. Qed.

Lemma play_respects (evs : list Event) (g : TurtleAdventureGame) : R g (play evs g).
Proof.
  revert g; induction evs as [|ev evs IH]; intro g; simpl; auto.
  eapply R_trans; [apply respects_handle | apply IH].
Qed.
End Frame.

(** ** The initial game *)

Lemma setworldcoordinates_test (width height : Z) :
  ((width - 1 - 0 =? 0) || (0 - (height - 1) =? 0))%Z = true
  <-> width = 1%Z \/ height = 1%Z.
Proof. rewrite orb_true_iff, !Z.eqb_eq. lia. Qed.

(** Construction completes unless the width or the height is 1. *)
Lemma init_game_spec (width height lvl winfo : Z) :
  width <> 1%Z -> height <> 1%Z ->
  TurtleAdventureGame_init width height lvl winfo
  = (Ok tt, initial_game width height lvl winfo).
Proof.
  intros Hw Hh. unfold TurtleAdventureGame_init, init_game.
  unfold bind at 1. unfold get at 1. cbv beta iota zeta.
  unfold bind at 1. unfold setworldcoordinates.
  cbn [screen_width screen_height TurtleAdventureGame_new].
  destruct ((width - 1 - 0 =? 0) || (0 - (height - 1) =? 0))%Z eqn:E.
  - apply setworldcoordinates_test in E. lia.
  - reflexivity.
Qed.

(** With a width or a height of 1 the coordinate set-up of the turtle
    screen divides by zero, before [init_game] has assigned anything. *)
Lemma init_game_raises (width height lvl winfo : Z) :
  width = 1%Z \/ height = 1%Z ->
  TurtleAdventureGame_init width height lvl winfo
  = (Raise ZeroDivisionError, TurtleAdventureGame_new width height lvl winfo).
Proof.
  intros H. unfold TurtleAdventureGame_init, init_game.
  unfold bind at 1. unfold get at 1. cbv beta iota zeta.
  unfold bind at 1. unfold setworldcoordinates.
  cbn [screen_width screen_height TurtleAdventureGame_new].
  destruct ((width - 1 - 0 =? 0) || (0 - (height - 1) =? 0))%Z eqn:E.
  - reflexivity.
  - apply setworldcoordinates_test in H. congruence.
Qed.

Lemma init_game_cases (width height : Z) :
  (width <> 1%Z /\ height <> 1%Z) \/ (width = 1%Z \/ height = 1%Z).
Proof. lia. Qed.



(** ** The [enemies] list *)

Lemma init_game_enemies (width height lvl winfo : Z) :
  enemies (snd (TurtleAdventureGame_init width height lvl winfo)) = [].
Proof.
  destruct (init_game_cases width height) as [[Hw Hh] | H].
  - rewrite (init_game_spec _ _ _ _ Hw Hh). reflexivity.
  - rewrite (init_game_raises _ _ _ _ H). reflexivity.
Qed.

(** C10.  In every reachable state of a game the [enemies] list is empty:
    enemies are registered through [add_element] only, and no event
    handler (tick, click, spawn timer) reaches [add_enemy], the one
    operation that appends to the list. *)
Theorem enemies_always_empty :
  forall g : TurtleAdventureGame, reachable g -> enemies g = [].
Proof.
  intros g (width & height & lvl & winfo & evs & ->).
  rewrite <- (init_game_enemies width height lvl winfo).
  apply (play_respects (fun a b => enemies b = enemies a)); try reflexivity.
  intros a b c Hab Hbc; congruence.
Qed.

(** C10 at a game that has seen a spawn, a click and a tick. *)
Lemma enemies_always_empty_witness :
  reachable short_play /\ enemies short_play = [].
Proof.
  assert (H : reachable short_play).
  { exists 800%Z, 500%Z, 1%Z, 800%Z,
      [ev_timer [1; 300; 120]%Z; ev_click 400 120; ev_tick []]. reflexivity. }
  split; [exact H | exact (enemies_always_empty short_play H)].
Defined.

(** ** Collision tests *)

Lemma Rabs_lt_iff (a b : R) : Rabs a < b <-> - b < a /\ a < b.
Proof. unfold Rabs; destruct (Rcase_abs a); lra. Qed.

Lemma Rabs_le_iff (a b : R) : Rabs a <= b <-> - b <= a /\ a <= b.
Proof. unfold Rabs; destruct (Rcase_abs a); lra. Qed.

(** C3.  The enemy-vs-player hit test is true exactly when the player's
    point is strictly inside the square centred at the enemy with edge
    [size] (less than half an edge away on each axis, both axes
    independently); [Home.contains] is true exactly when the point is in
    Home's square, bounds included. *)
Theorem hit_test_strict_home_inclusive :
  forall (g : TurtleAdventureGame) (e : Enemy) (h : Home) (px py : R),
    (Enemy_hits_player g e = true <->
       Rabs (Player_x (player g) - x e) < IZR (size e) / 2
       /\ Rabs (Player_y (player g) - y e) < IZR (size e) / 2)
    /\ (Home_contains h px py = true <->
       Rabs (px - home_x h) <= IZR (home_size h) / 2
       /\ Rabs (py - home_y h) <= IZR (home_size h) / 2).
Proof.
  intros g e h px py; split.
  - unfold Enemy_hits_player, half.
    rewrite !andb_true_iff, !Rltb_true, !Rabs_lt_iff. lra.
  - unfold Home_contains, half; cbv zeta.
    rewrite !andb_true_iff, !Rleb_true, !Rabs_le_iff. lra.
Qed.

(** ** Terminal notifications *)

(** C4 as stated fails: in a game that is already lost, one more
    notification of either kind changes the game (it draws a banner). *)
Lemma C4_later_notification_not_noop :
  stopped lost_game = true
  /\ run game_over_lose lost_game <> lost_game
  /\ run game_over_win lost_game <> lost_game
  /\ canvas (run game_over_lose lost_game)
     = canvas lost_game ++ [banner lost_game "You Lose" "red"].
Proof.
  split; [ | split; [ | split ] ].
  - vm_compute; reflexivity.
  - intro H; apply (f_equal next_id) in H; vm_compute in H; discriminate H.
  - intro H; apply (f_equal next_id) in H; vm_compute in H; discriminate H.
  - vm_compute; reflexivity.
Qed.

(** The same within one tick: two bombs that hit the player in the same
    tick each notify the loss, and each notification draws its banner. *)
Lemma two_hits_in_one_tick_draw_two_banners :
  filter is_banner (canvas (run tick two_bombs_game))
  = [create_text 6 (IZR 800 / 2) (IZR 500 / 2) "You Lose" "red";
     create_text 7 (IZR 800 / 2) (IZR 500 / 2) "You Lose" "red"].
Proof.
  unfold run. evaluate (tick two_bombs_game). reflexivity.
Qed.

(** C4, amended.  Every call of [game_over_win] and [game_over_lose]
    returns normally, leaves the game stopped and draws one more banner
    text on the canvas; it changes nothing else.  So a later notification
    keeps the game stopped and leaves the simulation state alone, but it is
    not a no-op: each one adds a banner. *)
Theorem game_over_stops_and_draws :
  forall g : TurtleAdventureGame,
    (outcome game_over_lose g = Ok tt
     /\ run game_over_lose g =
          set_canvas (set_stopped g true)
                     (canvas g ++ [banner g "You Lose" "red"]) (S (next_id g))
     /\ stopped (run game_over_lose g) = true)
    /\ (outcome game_over_win g = Ok tt
        /\ run game_over_win g =
             set_canvas (set_stopped g true)
                        (canvas g ++ [banner g "You Win" "green"]) (S (next_id g))
        /\ stopped (run game_over_win g) = true).
Proof. intro g; repeat split. Qed.

(** ** Constructors *)




(** ** Bomb *)

Lemma Enemy_hits_player_frame (g g' : TurtleAdventureGame) (e : Enemy) :
  player g' = player g -> Enemy_hits_player g' e = Enemy_hits_player g e.
Proof. unfold Enemy_hits_player; intros ->; reflexivity. Qed.

(** What one call of [Bomb.update] does, for every bomb and every game:
    the timer advances, the hit test runs whenever the new timer is at
    least 20 (and a hit stops the game), and the collection of entities is
    left as it was. *)
Lemma Bomb_update_spec (g : TurtleAdventureGame) (b : Bomb) :
  let t := (bomb_timer b + 1)%Z in
  outcome (Bomb_update b) g = Ok (mkBomb (bomb_enemy b) (bomb_id b) t)
  /\ elements (run (Bomb_update b) g) = elements g
  /\ stopped (run (Bomb_update b) g)
     = (((20 <=? t)%Z && Enemy_hits_player g (bomb_enemy b)) || stopped g)%bool.
Proof.
  cbv zeta. unfold Bomb_update, Bomb_delete, lose_if_hit, outcome, run.
  cbn [bomb_timer bomb_enemy bomb_id].
  destruct (20 <=? bomb_timer b + 1)%Z eqn:E20;
    destruct (21 <=? bomb_timer b + 1)%Z eqn:E21;
    unfold when, bind, canvas_do, modify, get, ret; cbn -[Enemy_hits_player];
    try (rewrite (Enemy_hits_player_frame g) by reflexivity;
         destruct (Enemy_hits_player g (bomb_enemy b)));
    cbn; auto.
Qed.

(** *** No bomb ever leaves the collection *)

Lemma keeps_entries_refl (g : TurtleAdventureGame) : keeps_entries g g.
Proof. intros i e H; exact H. Qed.

Lemma keeps_entries_same (g g' : TurtleAdventureGame) :
  elements g' = elements g -> keeps_entries g g'.
Proof. intros E i e H; rewrite E; exact H. Qed.

Lemma keeps_entries_trans (a b c : TurtleAdventureGame) :
  keeps_entries a b -> keeps_entries b c -> keeps_entries a c.
Proof. intros Hab Hbc i e H; apply Hbc, Hab, H. Qed.

Lemma keeps_entries_append (g : TurtleAdventureGame) (e : GameElement) :
  keeps_entries g (set_elements g (elements g ++ [e])).
Proof.
  intros i e0 H; cbn [elements set_elements].
  rewrite nth_error_app1; [exact H | ].
  apply nth_error_Some; congruence.
Qed.

Lemma update_element_keeps (e : GameElement) : respects keeps_entries (update_element e).
Proof.
  apply respects_update_element;
    first [ exact keeps_entries_refl | exact keeps_entries_trans
          | exact keeps_entries_append
          | intros; apply keeps_entries_same; reflexivity ].
Qed.

Lemma render_element_keeps (e : GameElement) : respects keeps_entries (render_element e).
Proof.
  apply respects_render_element;
    first [ exact keeps_entries_refl | exact keeps_entries_trans
          | intros; apply keeps_entries_same; reflexivity ].
Qed.

Lemma create_enemy_keeps : respects keeps_entries EnemyGenerator_create_enemy.
Proof.
  apply respects_create_enemy;
    first [ exact keeps_entries_refl | exact keeps_entries_trans
          | exact keeps_entries_append
          | intros; apply keeps_entries_same; reflexivity ].
Qed.

Lemma keeps_entries_bombs (g g' : TurtleAdventureGame) :
  keeps_entries g g' -> keeps_bombs g g'.
Proof. intros H i b Hi; exists b; split; [apply H, Hi | lia]. Qed.

Lemma keeps_bombs_refl (g : TurtleAdventureGame) : keeps_bombs g g.
Proof. apply keeps_entries_bombs, keeps_entries_refl. Qed.

Lemma keeps_bombs_trans (a b c : TurtleAdventureGame) :
  keeps_bombs a b -> keeps_bombs b c -> keeps_bombs a c.
Proof.
  intros Hab Hbc i b0 H.
  destruct (Hab i b0 H) as (b1 & H1 & L1).
  destruct (Hbc i b1 H1) as (b2 & H2 & L2).
  exists b2; split; [exact H2 | lia].
Qed.

Lemma nth_error_replace_nth_eq {A} (l : list A) (i : nat) (a b : A) :
  nth_error l i = Some b -> nth_error (replace_nth i l a) i = Some a.
Proof.
  revert i; induction l as [|c l IH]; intros [|i] H; simpl in *;
    try discriminate; auto.
Qed.

Lemma nth_error_replace_nth_neq {A} (l : list A) (i j : nat) (a : A) :
  i <> j -> nth_error (replace_nth j l a) i = nth_error l i.
Proof.
  revert i j; induction l as [|c l IH]; intros [|i] [|j] H; simpl;
    try reflexivity; try congruence.
  apply IH; congruence.
Qed.

Lemma update_element_bomb (g : TurtleAdventureGame) (b : Bomb) :
  outcome (update_element (ABomb b)) g
  = Ok (ABomb (mkBomb (bomb_enemy b) (bomb_id b) (bomb_timer b + 1))).
Proof.
  unfold update_element.
  rewrite (outcome_bind _ _ _ _ (proj1 (Bomb_update_spec g b))). reflexivity.
Qed.

Lemma tick_element_keeps_bombs (j : nat) : respects keeps_bombs (tick_element j).
Proof.
  intro g. unfold tick_element, run, bind at 1, get.
  destruct (nth_error (elements g) j) as [e|] eqn:Ej; [ | apply keeps_bombs_refl].
  pose proof (update_element_keeps e g) as K1.
  pose proof (fun b => update_element_bomb g b) as Hb.
  unfold run, outcome in K1, Hb. unfold bind at 1.
  destruct (update_element e g) as [[e'| |] g1] eqn:Eu; cbn [fst snd] in *;
    try (apply keeps_entries_bombs; exact K1).
  unfold bind, modify.
  pose proof (render_element_keeps e'
                (set_elements g1 (replace_nth j (elements g1) e'))) as K3.
  unfold run in K3.
  destruct (render_element e' _) as [r3 g3]; cbn [fst snd] in *.
  assert (Hfinal : keeps_bombs g g3).
  { intros i b Hi.
    destruct (Nat.eq_dec i j) as [-> | Hij].
    - rewrite Ej in Hi; injection Hi as ->.
      specialize (Hb b). rewrite Eu in Hb; cbn [fst] in Hb. injection Hb as ->.
      eexists; split.
      + apply K3. cbn [elements set_elements].
        apply (nth_error_replace_nth_eq _ _ _ (ABomb b)). apply K1, Ej.
      + cbn; lia.
    - exists b; split; [ | lia].
      apply K3. cbn [elements set_elements].
      rewrite nth_error_replace_nth_neq by exact Hij. apply K1, Hi. }
  destruct r3; exact Hfinal.
Qed.

Lemma for_each_keeps_bombs (l : list nat) : respects keeps_bombs (for_each l tick_element).
Proof.
  induction l as [|j l IH]; intro g; simpl.
  - apply keeps_bombs_refl.
  - unfold run, bind.
    pose proof (tick_element_keeps_bombs j g) as H1. unfold run in H1.
    destruct (tick_element j g) as [[[]| |] g1]; cbn [snd] in *; auto.
    eapply keeps_bombs_trans; [exact H1 | apply IH].
Qed.

Lemma tick_keeps_bombs : respects keeps_bombs tick.
Proof.
  intro g. unfold run, tick, bind, get. cbv beta iota.
  destruct (stopped g); [apply keeps_bombs_refl | apply for_each_keeps_bombs].
Qed.

Lemma handle_keeps_bombs (ev : Event) : respects keeps_bombs (handle ev).
Proof.
  intro g; destruct ev as [draws | px py | draws | width].
  - change (keeps_bombs g (run tick (set_tape g draws))).
    apply (keeps_bombs_trans _ (set_tape g draws)); [ | apply tick_keeps_bombs].
    apply keeps_entries_bombs, keeps_entries_same; reflexivity.
  - apply keeps_entries_bombs, keeps_entries_same; reflexivity.
  - change (keeps_bombs g (run fire_timer (set_tape g draws))).
    apply (keeps_bombs_trans _ (set_tape g draws)).
    { apply keeps_entries_bombs, keeps_entries_same; reflexivity. }
    generalize (set_tape g draws); intro g1.
    unfold run, fire_timer, bind at 1, get. cbv beta iota.
    destruct (scheduled g1) as [|[d []] rest]; [apply keeps_bombs_refl | ].
    change (keeps_bombs g1 (run EnemyGenerator_create_enemy (set_scheduled g1 rest))).
    apply (keeps_bombs_trans _ (set_scheduled g1 rest)).
    + apply keeps_entries_bombs, keeps_entries_same; reflexivity.
    + apply keeps_entries_bombs, create_enemy_keeps.
  - apply keeps_entries_bombs, keeps_entries_same; reflexivity.
Qed.

(** Whatever happens to a game (ticks, clicks, spawns, also ones that
    raise), a bomb that is in the collection stays in it, at its place. *)
Lemma bombs_stay_in_collection (evs : list Event) (g : TurtleAdventureGame) :
  keeps_bombs g (play evs g).
Proof.
  revert g; induction evs as [|ev evs IH]; intro g; simpl.
  - apply keeps_bombs_refl.
  - eapply keeps_bombs_trans; [apply handle_keeps_bombs | apply IH].
Qed.

(** C1, at the failing input.  On its 22nd update a bomb still runs the
    hit test: with the player inside its box the tick ends the game in a
    loss, and after the tick the bomb is still in the orchestrator's
    collection, its timer at 22.  It stays in the collection whatever
    happens to the game afterwards. *)
Theorem Bomb_still_live_after_self_destruct :
  stopped game_with_expired_bomb = false
  /\ outcome tick game_with_expired_bomb = Ok tt
  /\ stopped (run tick game_with_expired_bomb) = true
  /\ elements (run tick game_with_expired_bomb) =
       [TheWaypoint; TheHome; ThePlayer;
        ABomb (mkBomb (mkEnemy 50 250 30 "grey") (Some 4%nat) 22)]
  /\ In (create_text 5 (IZR 800 / 2) (IZR 500 / 2) "You Lose" "red")
        (canvas (run tick game_with_expired_bomb))
  /\ (forall evs : list Event,
        exists b' : Bomb,
          nth_error (elements (play evs game_with_expired_bomb)) 3 = Some (ABomb b')
          /\ (21 <= bomb_timer b')%Z).
Proof.
  split; [reflexivity | ].
  assert (Hstay : forall evs : list Event,
             exists b' : Bomb,
               nth_error (elements (play evs game_with_expired_bomb)) 3 = Some (ABomb b')
               /\ (21 <= bomb_timer b')%Z).
  { intro evs.
    apply (bombs_stay_in_collection evs game_with_expired_bomb 3%nat expired_bomb).
    reflexivity. }
  unfold outcome, run.
  evaluate (tick game_with_expired_bomb).
  cbn [fst snd stopped elements canvas].
  repeat split; try exact Hstay. simpl. tauto.
Qed.

(** ** RandomWalkEnemy *)

Lemma randint_ok (a b : Z) (g : TurtleAdventureGame) (r : Z) (rest : list Z) :
  (a <= b)%Z -> tape g = r :: rest ->
  randint a b g = (Ok (a + r mod (b - a + 1))%Z, set_tape g rest).
Proof.
  intros Hab Ht; unfold randint.
  replace (b <? a)%Z with false by (symmetry; apply Z.ltb_ge; lia).
  rewrite Ht; reflexivity.
Qed.

Lemma randint_range (a b r : Z) :
  (a <= b)%Z -> (a <= a + r mod (b - a + 1) <= b)%Z.
Proof.
  intro Hab. pose proof (Z.mod_pos_bound r (b - a + 1)) as H. lia.
Qed.

Lemma lose_if_hit_ok (e : Enemy) (g : TurtleAdventureGame) :
  outcome (lose_if_hit e) g = Ok tt.
Proof.
  unfold lose_if_hit, outcome, bind, get, when.
  destruct (Enemy_hits_player g e); reflexivity.
Qed.

Lemma then_lose_if_hit {A} (m : M A) (e : A -> Enemy) (g : TurtleAdventureGame) (a : A) :
  outcome m g = Ok a ->
  outcome (v <- m ;; lose_if_hit (e v) ;; ret v) g = Ok a.
Proof.
  intro H. rewrite (outcome_bind _ _ _ _ H).
  rewrite (outcome_bind _ _ _ _ (lose_if_hit_ok _ _)). reflexivity.
Qed.




(** ** FencingEnemy *)

Lemma FencingEnemy_update_ok (g : TurtleAdventureGame) (f : FencingEnemy) :
  outcome (FencingEnemy_update f) g = Ok (FencingEnemy_state f).
Proof.
  unfold FencingEnemy_update.
  rewrite (outcome_bind _ _ _ _ (lose_if_hit_ok _ _)). reflexivity.
Qed.

Lemma update_element_patroller (g : TurtleAdventureGame) (f : FencingEnemy) :
  outcome (update_element (AFencingEnemy f)) g = Ok (AFencingEnemy (FencingEnemy_state f)).
Proof.
  unfold update_element.
  rewrite (outcome_bind _ _ _ _ (FencingEnemy_update_ok g f)). reflexivity.
Qed.

Lemma patrol_S (n : nat) (f : FencingEnemy) :
  patrol (S n) f = patrol n (FencingEnemy_state f).
Proof. reflexivity. Qed.



Lemma FencingEnemy_state_route (f : FencingEnemy) : same_route f (FencingEnemy_state f).
Proof.
  unfold same_route, FencingEnemy_state, FencingEnemy_down, FencingEnemy_right,
    FencingEnemy_up, FencingEnemy_left.
  destruct (fe_state f);
    match goal with |- context [if ?c then _ else _] => destruct c end;
    cbn; repeat split; reflexivity.
Qed.






(** ** ChasingEnemy *)

Lemma ChasingEnemy_update_ok (g : TurtleAdventureGame) (c : ChasingEnemy) :
  outcome (ChasingEnemy_update c) g = Ok (ChasingEnemy_ystate g (ChasingEnemy_xstate g c)).
Proof.
  unfold ChasingEnemy_update, outcome, bind, get.
  pose proof (lose_if_hit_ok (ch_enemy (ChasingEnemy_ystate g (ChasingEnemy_xstate g c))) g) as H.
  unfold outcome in H.
  destruct (lose_if_hit _ g) as [[[]| |] g']; simpl in *; congruence.
Qed.

(** C7 as stated fails: a chaser moving right, a quarter of a unit left
    of a player who does not move, steps past the player and ends three
    quarters of a unit away, still in the moving-right state. *)
Lemma C7_chaser_distance_grows :
  exists c' : ChasingEnemy,
    outcome (ChasingEnemy_update close_chaser) (game_with_player_at (401 / 4) 100) = Ok c'
    /\ ch_xstate close_chaser = x_right
    /\ x (ch_enemy close_chaser) <= Player_x (player (game_with_player_at (401 / 4) 100))
    /\ ch_xstate c' = x_right
    /\ Rabs (x (ch_enemy close_chaser)
             - Player_x (player (game_with_player_at (401 / 4) 100)))
       < Rabs (x (ch_enemy c') - Player_x (player (game_with_player_at (401 / 4) 100))).
Proof.
  eexists. split; [apply ChasingEnemy_update_ok | ].
  evaluate (ChasingEnemy_ystate (game_with_player_at (401 / 4) 100)
              (ChasingEnemy_xstate (game_with_player_at (401 / 4) 100) close_chaser)).
  cbn. split; [reflexivity | split; [lra | split; [reflexivity | ] ] ].
  rewrite Rabs_left by lra. rewrite Rabs_right by lra. lra.
Qed.

(** One axis of the chase, on numbers: the chaser at [a], the player at
    [p], one step of length [s] toward the player from the near side. *)
Lemma approach_step (a p s : R) :
  0 <= s -> a <= p ->
  Rabs (a + s - p) = Rabs (Rabs (a - p) - s)
  /\ Rabs (a + s - p) <= Rmax (Rabs (a - p)) s
  /\ (s <= 2 * Rabs (a - p) -> Rabs (a + s - p) <= Rabs (a - p)).
Proof.
  intros Hs Hap.
  assert (E : Rabs (a - p) = p - a) by (rewrite Rabs_left1; lra).
  rewrite E. repeat split.
  - unfold Rabs; destruct (Rcase_abs (a + s - p)), (Rcase_abs (p - a - s)); lra.
  - unfold Rmax; destruct (Rle_dec (p - a) s);
      unfold Rabs; destruct (Rcase_abs (a + s - p)); lra.
  - intro H; unfold Rabs; destruct (Rcase_abs (a + s - p)); lra.
Qed.

Lemma retreat_step (a p s : R) :
  0 <= s -> p <= a ->
  Rabs (a + - s - p) = Rabs (Rabs (a - p) - s)
  /\ Rabs (a + - s - p) <= Rmax (Rabs (a - p)) s
  /\ (s <= 2 * Rabs (a - p) -> Rabs (a + - s - p) <= Rabs (a - p)).
Proof.
  intros Hs Hap.
  assert (E : Rabs (a - p) = a - p) by (rewrite Rabs_right; lra).
  rewrite E. repeat split.
  - unfold Rabs; destruct (Rcase_abs (a + - s - p)), (Rcase_abs (a - p - s)); lra.
  - unfold Rmax; destruct (Rle_dec (a - p) s);
      unfold Rabs; destruct (Rcase_abs (a + - s - p)); lra.
  - intro H; unfold Rabs; destruct (Rcase_abs (a + - s - p)); lra.
Qed.

(** C7, amended.  A chaser's update always completes and treats the two
    axes alike and independently.  On the x-axis the state flips exactly
    on the ticks that begin with the chaser strictly past the player's x
    in its direction of travel, and on those ticks x does not change.
    On every other tick (the approaching half) the chaser steps by its
    speed toward the player, so that its x-distance to the player becomes
    | |x - px| - speed |: it does not increase when the player is at least
    half a step away, and it never exceeds the larger of the old distance
    and one step; closer than half a step the chaser overshoots and the
    distance grows.  The player is taken where it is during the update. *)
Theorem ChasingEnemy_axis_step :
  forall (g : TurtleAdventureGame) (c : ChasingEnemy),
    0 <= ch_speed c ->
    let px := Player_x (player g) in
    let py := Player_y (player g) in
    let c' := ChasingEnemy_ystate g (ChasingEnemy_xstate g c) in
    outcome (ChasingEnemy_update c) g = Ok c'
    /\ (ch_xstate c' <> ch_xstate c <->
          (ch_xstate c = x_right /\ px < x (ch_enemy c))
          \/ (ch_xstate c = x_left /\ x (ch_enemy c) < px))
    /\ (ch_xstate c' <> ch_xstate c -> x (ch_enemy c') = x (ch_enemy c))
    /\ (ch_xstate c' = ch_xstate c ->
          Rabs (x (ch_enemy c') - px) = Rabs (Rabs (x (ch_enemy c) - px) - ch_speed c)
          /\ Rabs (x (ch_enemy c') - px) <= Rmax (Rabs (x (ch_enemy c) - px)) (ch_speed c)
          /\ (ch_speed c <= 2 * Rabs (x (ch_enemy c) - px) ->
                Rabs (x (ch_enemy c') - px) <= Rabs (x (ch_enemy c) - px)))
    /\ (ch_ystate c' <> ch_ystate c <->
          (ch_ystate c = y_down /\ py < y (ch_enemy c))
          \/ (ch_ystate c = y_up /\ y (ch_enemy c) < py))
    /\ (ch_ystate c' <> ch_ystate c -> y (ch_enemy c') = y (ch_enemy c))
    /\ (ch_ystate c' = ch_ystate c ->
          Rabs (y (ch_enemy c') - py) = Rabs (Rabs (y (ch_enemy c) - py) - ch_speed c)
          /\ Rabs (y (ch_enemy c') - py) <= Rmax (Rabs (y (ch_enemy c) - py)) (ch_speed c)
          /\ (ch_speed c <= 2 * Rabs (y (ch_enemy c) - py) ->
                Rabs (y (ch_enemy c') - py) <= Rabs (y (ch_enemy c) - py))).
Proof.
  intros g c Hs; cbv zeta.
  split; [apply ChasingEnemy_update_ok | ].
  unfold ChasingEnemy_ystate, ChasingEnemy_xstate, ChasingEnemy_left, ChasingEnemy_right,
    ChasingEnemy_up, ChasingEnemy_down.
  destruct (ch_xstate c) eqn:Ex.
  - (* x: left *)
    destruct (Rltb (x (ch_enemy c)) (Player_x (player g))) eqn:Cx;
      [apply Rltb_true in Cx | apply Rltb_false in Cx].
    all: destruct (ch_ystate c) eqn:Ey; cbn; rewrite ?Ex, ?Ey; cbn.
    all: match goal with |- context [if ?b then _ else _] => destruct b eqn:Cy end.
    all: cbn; rewrite ?Ex, ?Ey.
    all: try apply Rltb_true in Cy; try apply Rltb_false in Cy.
    all: repeat split; intros;
      try congruence; try discriminate; try tauto; try lra;
      try (left; split; [reflexivity | lra]);
      try (right; split; [reflexivity | lra]);
      try (apply retreat_step; lra); try (apply approach_step; lra);
      try (exfalso; intuition (try congruence; try lra)).
  - (* x: right *)
    destruct (Rltb (Player_x (player g)) (x (ch_enemy c))) eqn:Cx;
      [apply Rltb_true in Cx | apply Rltb_false in Cx].
    all: destruct (ch_ystate c) eqn:Ey; cbn; rewrite ?Ex, ?Ey; cbn.
    all: match goal with |- context [if ?b then _ else _] => destruct b eqn:Cy end.
    all: cbn; rewrite ?Ex, ?Ey.
    all: try apply Rltb_true in Cy; try apply Rltb_false in Cy.
    all: repeat split; intros;
      try congruence; try discriminate; try tauto; try lra;
      try (left; split; [reflexivity | lra]);
      try (right; split; [reflexivity | lra]);
      try (apply retreat_step; lra); try (apply approach_step; lra);
      try (exfalso; intuition (try congruence; try lra)).
Qed.

(** C7, amended, at that chaser. *)
Lemma ChasingEnemy_axis_step_witness :
  0 <= ch_speed close_chaser
  /\ outcome (ChasingEnemy_update close_chaser) (game_with_player_at (401 / 4) 100)
     = Ok (ChasingEnemy_ystate (game_with_player_at (401 / 4) 100)
             (ChasingEnemy_xstate (game_with_player_at (401 / 4) 100) close_chaser)).
Proof.
  assert (H : 0 <= ch_speed close_chaser) by (simpl; lra).
  split; [exact H | ].
  apply (ChasingEnemy_axis_step (game_with_player_at (401 / 4) 100) close_chaser H).
Defined.

(** ** EnemyGenerator *)

Lemma bind_eq {A B} (m : M A) (k : A -> M B) (g g' : TurtleAdventureGame) (a : A) :
  m g = (Ok a, g') -> bind m k g = k a g'.
Proof. intro H; unfold bind; rewrite H; reflexivity. Qed.

Lemma reroll_eq (width ex : Z) (draws : list Z) :
  reroll width ex draws =
  if ((40 <? ex) && (ex <? 60))%Z then
    if (width <? 0)%Z then (Raise ValueError, draws)
    else match draws with
         | [] => (TapeEnd, draws)
         | r :: rest => reroll width (0 + r mod (width - 0 + 1))%Z rest
         end
  else (Ok ex, draws).
Proof. destruct draws; reflexivity. Qed.

Lemma in_band_test (n : Z) : ((40 <? n) && (n <? 60))%Z = true <-> in_band n.
Proof. unfold in_band; rewrite andb_true_iff, !Z.ltb_lt; tauto. Qed.

(** The re-roll loop ends as soon as a draw falls outside the band, and
    what it returns is in the play area's range and not strictly between
    40 and 60. *)
Lemma reroll_spec (width : Z) (draws : list Z) :
  (0 <= width)%Z ->
  forall ex : Z,
    (0 <= ex <= width)%Z ->
    ~ in_band ex \/ Exists (fun r => ~ in_band (r mod (width + 1))) draws ->
    exists (n : Z) (rest : list Z),
      reroll width ex draws = (Ok n, rest) /\ ~ in_band n /\ (0 <= n <= width)%Z.
Proof.
  intro Hw. induction draws as [|r draws IH]; intros ex Hex Hout; rewrite reroll_eq.
  - destruct ((40 <? ex) && (ex <? 60))%Z eqn:E.
    + apply in_band_test in E. destruct Hout as [H | H]; [tauto | inversion H].
    + exists ex, []. repeat split; try lia.
      intro H; apply in_band_test in H; congruence.
  - destruct ((40 <? ex) && (ex <? 60))%Z eqn:E.
    + replace (width <? 0)%Z with false by (symmetry; apply Z.ltb_ge; lia).
      rewrite Z.add_0_l, Z.sub_0_r.
      apply IH.
      * pose proof (Z.mod_pos_bound r (width + 1)); lia.
      * apply in_band_test in E.
        destruct Hout as [H | H]; [tauto | ].
        inversion H; subst; [left; assumption | right; assumption].
    + exists ex, (r :: draws). repeat split; try lia.
      intro H; apply in_band_test in H; congruence.
Qed.

Lemma add_element_enemy (g : TurtleAdventureGame) (e : GameElement) (b : Enemy) :
  element_enemy e = Some b ->
  exists (e' : GameElement) (g' : TurtleAdventureGame),
    add_element e g = (Ok tt, g')
    /\ elements g' = elements g ++ [e']
    /\ element_enemy e' = Some b
    /\ level g' = level g /\ scheduled g' = scheduled g.
Proof.
  intro He. destruct e; try discriminate He; simpl in He;
    eexists; eexists; (split; [reflexivity | ]); cbn; auto.
Qed.

Lemma element_enemy_assign (e : GameElement) (b : Enemy) (vx vy : R) :
  element_enemy e = Some b ->
  element_enemy (assign_xy e vx vy) = Some (set_y (set_x b vx) vy).
Proof.
  intro He. unfold assign_xy; rewrite He.
  destruct e; try discriminate He; reflexivity.
Qed.

Lemma instantiate_enemy (g : TurtleAdventureGame) (cls : EnemyClass) (sz : Z)
  (col : string) (speed : Z) :
  element_enemy (instantiate g cls sz col speed) = Some (Enemy_new sz col).
Proof. destruct cls; reflexivity. Qed.

Lemma random_choice_catalog (g : TurtleAdventureGame) (c : Z) (rest : list Z) :
  tape g = c :: rest ->
  random_choice (map fst catalog) g = (Ok (chosen_class c), set_tape g rest).
Proof. intro H; unfold random_choice; simpl map; rewrite H; reflexivity. Qed.

Lemma spawn_delay_ok (lvl : Z) (g : TurtleAdventureGame) :
  lvl <> 0%Z -> spawn_delay lvl g = (Ok (Z.quot 4000 lvl), g).
Proof.
  intro H; unfold spawn_delay.
  replace (lvl =? 0)%Z with false by (symmetry; apply Z.eqb_neq; exact H).
  reflexivity.
Qed.

Lemma create_enemy_home_placement (g : TurtleAdventureGame) (c : Z) (rest : list Z) :
  enemy_dict (enemy_generator g) = catalog ->
  tape g = c :: rest ->
  chosen_class c = FencingEnemy_cls ->
  level g <> 0%Z ->
  outcome EnemyGenerator_create_enemy g = Ok tt
  /\ elements (run EnemyGenerator_create_enemy g)
     = elements g ++ [AFencingEnemy (FencingEnemy_spawned g (gen_speed (enemy_generator g))
                                                        (Some (next_id g)))].
Proof.
  intros Hdict Htape Hcls Hlvl.
  assert (Hrun : EnemyGenerator_create_enemy g
                 = (Ok tt,
                    set_scheduled
                      (snd (add_element
                              (AFencingEnemy (FencingEnemy_spawned g (gen_speed (enemy_generator g)) None))
                              (set_tape g rest)))
                      (scheduled g ++ [(Z.quot 4000 (level g), cb_create_enemy)]))).
  { unfold EnemyGenerator_create_enemy.
    rewrite (bind_eq get _ g g g eq_refl).
    rewrite Hdict.
    rewrite (bind_eq _ _ _ _ _ (random_choice_catalog g c _ Htape)).
    rewrite Hcls. cbn [dict_get catalog EnemyClass_eqb fst snd instantiate].
    change (String.eqb "home" "home") with true. cbv iota.
    rewrite (bind_eq (ret _) _ _ _ _ eq_refl).
    match goal with
    | |- context [bind (add_element ?e) _ ?g1] =>
        rewrite (bind_eq (add_element e) _ g1 (snd (add_element e g1)) tt eq_refl)
    end.
    match goal with |- context [bind get _ ?g1] => rewrite (bind_eq get _ g1 g1 g1 eq_refl) end.
    rewrite (bind_eq _ _ _ _ _ (spawn_delay_ok _ _ Hlvl)).
    reflexivity. }
  unfold outcome, run; rewrite Hrun; split; reflexivity.
Qed.

(** C8 as stated fails: at level 3 a walker is finally placed at x = 40,
    inside [40, 60], and the next firing is scheduled 1333 units later,
    which is not 4000 / 3. *)
Lemma C8_band_edge_and_truncated_delay :
  exists w : RandomWalkEnemy,
    nth_error (elements first_spawn_at_40) 3 = Some (ARandomWalkEnemy w)
    /\ x (rw_enemy w) = 40
    /\ 40 <= x (rw_enemy w) <= 60
    /\ scheduled first_spawn_at_40 = [(1333%Z, cb_create_enemy)]
    /\ (1333 * level first_spawn_at_40 <> 4000)%Z.
Proof.
  evaluate first_spawn_at_40.
  eexists. cbn. repeat split; cbn; first [lra | lia].
Qed.

(** C8, amended.  When the kind chosen at a firing has the random
    placement rule, the screen has non-negative dimensions, the level is
    not 0 and some draw for x falls outside the band, the firing
    completes: the new agent is registered last in the collection with an
    integer x in [0 .. screen_width] that is not strictly between 40 and
    60 (the x is re-rolled while 40 < x < 60, so 40 and 60 themselves are
    kept), and the scheduler reschedules itself after [int(4000 / level)]
    time units, the quotient truncated to an integer. *)
Theorem create_enemy_random_placement :
  forall (g : TurtleAdventureGame) (c xd yd : Z) (more : list Z),
    enemy_dict (enemy_generator g) = catalog ->
    tape g = c :: xd :: yd :: more ->
    fst (dict_get catalog (chosen_class c)) = "random"%string ->
    (0 <= screen_width g)%Z -> (0 <= screen_height g)%Z -> level g <> 0%Z ->
    Exists (fun r => ~ in_band (r mod (screen_width g + 1))) (xd :: more) ->
    exists (e : GameElement) (b : Enemy) (n : Z),
      outcome EnemyGenerator_create_enemy g = Ok tt
      /\ elements (run EnemyGenerator_create_enemy g) = elements g ++ [e]
      /\ element_enemy e = Some b
      /\ x b = IZR n /\ (0 <= n <= screen_width g)%Z /\ ~ (40 < n < 60)%Z
      /\ scheduled (run EnemyGenerator_create_enemy g)
         = scheduled g ++ [(Z.quot 4000 (level g), cb_create_enemy)].
Proof.
  intros g c xd yd more Hdict Htape Hrule Hw Hh Hlvl Hout.
  set (cls := chosen_class c) in *.
  set (ex0 := (0 + xd mod (screen_width g - 0 + 1))%Z).
  set (ey := (0 + yd mod (screen_height g - 0 + 1))%Z).
  assert (Hex0 : (0 <= ex0 <= screen_width g)%Z) by (apply randint_range; lia).
  destruct (reroll_spec (screen_width g) more Hw ex0 Hex0) as (n & rest & Hre & Hband & Hn).
  { inversion Hout as [? ? H | ? ? H]; subst; [left | right; assumption].
    unfold ex0; rewrite Z.add_0_l, Z.sub_0_r; exact H. }
  set (enemy := instantiate g cls 20 (snd (dict_get catalog cls)) (gen_speed (enemy_generator g))).
  set (placed := assign_xy enemy (IZR n) (IZR ey)).
  set (g3 := set_tape (set_tape (set_tape (set_tape g (xd :: yd :: more)) (yd :: more)) more) rest).
  assert (Hpl : element_enemy placed
                = Some (set_y (set_x (Enemy_new 20 (snd (dict_get catalog cls))) (IZR n)) (IZR ey))).
  { apply element_enemy_assign, instantiate_enemy. }
  destruct (add_element_enemy g3 placed _ Hpl) as (e' & g4 & Hadd & Hel & Hen & Hl4 & Hs4).
  assert (Hrun : EnemyGenerator_create_enemy g
                 = (Ok tt, set_scheduled g4 (scheduled g4 ++ [(Z.quot 4000 (level g), cb_create_enemy)]))).
  { unfold EnemyGenerator_create_enemy.
    rewrite (bind_eq get _ g g g eq_refl).
    rewrite Hdict.
    rewrite (bind_eq _ _ _ _ _ (random_choice_catalog g c _ Htape)).
    fold cls. rewrite Hrule.
    change (String.eqb "random" "home") with false. cbv iota.
    fold enemy.
    rewrite (bind_eq _ _ (set_tape g (xd :: yd :: more)) g3 placed).
    - rewrite (bind_eq _ _ _ _ _ Hadd).
      rewrite (bind_eq get _ g4 g4 g4 eq_refl).
      rewrite (bind_eq _ _ _ _ _ (spawn_delay_ok (level g4) g4 ltac:(rewrite Hl4; exact Hlvl))).
      rewrite Hl4. reflexivity.
    - rewrite (bind_eq _ _ _ _ _
                 (randint_ok 0 (screen_width g) (set_tape g (xd :: yd :: more))
                             xd (yd :: more) Hw eq_refl)).
      rewrite (bind_eq _ _ _ _ _
                 (randint_ok 0 (screen_height g)
                             (set_tape (set_tape g (xd :: yd :: more)) (yd :: more))
                             yd more Hh eq_refl)).
      fold ex0. fold ey.
      rewrite (bind_eq _ _ _ g3 n).
      + reflexivity.
      + unfold reroll_x. cbn [tape set_tape]. rewrite Hre. reflexivity. }
  exists e', (set_y (set_x (Enemy_new 20 (snd (dict_get catalog cls))) (IZR n)) (IZR ey)), n.
  unfold outcome, run. rewrite Hrun. cbn [fst snd].
  split; [reflexivity | ].
  split; [exact Hel | ].
  split; [exact Hen | ].
  split; [reflexivity | ].
  split; [exact Hn | ].
  split; [exact Hband | ].
  cbn [scheduled set_scheduled]. rewrite Hs4. reflexivity.
Qed.

(** C8, amended, at a firing whose first x falls in the band and is
    re-rolled. *)
Lemma create_enemy_random_placement_witness :
  tape spawn_with_reroll = [0; 50; 120; 40]%Z
  /\ fst (dict_get catalog (chosen_class 0)) = "random"%string
  /\ level spawn_with_reroll <> 0%Z
  /\ exists (e : GameElement) (b : Enemy) (n : Z),
       outcome EnemyGenerator_create_enemy spawn_with_reroll = Ok tt
       /\ elements (run EnemyGenerator_create_enemy spawn_with_reroll)
          = elements spawn_with_reroll ++ [e]
       /\ element_enemy e = Some b
       /\ x b = IZR n /\ (0 <= n <= screen_width spawn_with_reroll)%Z
       /\ ~ (40 < n < 60)%Z
       /\ scheduled (run EnemyGenerator_create_enemy spawn_with_reroll)
          = scheduled spawn_with_reroll
            ++ [(Z.quot 4000 (level spawn_with_reroll), cb_create_enemy)].
Proof.
  assert (H1 : tape spawn_with_reroll = [0; 50; 120; 40]%Z) by reflexivity.
  assert (H2 : fst (dict_get catalog (chosen_class 0)) = "random"%string) by reflexivity.
  assert (H3 : level spawn_with_reroll <> 0%Z) by (simpl; lia).
  split; [exact H1 | split; [exact H2 | split; [exact H3 | ] ] ].
  apply (create_enemy_random_placement spawn_with_reroll 0 50 120 [40%Z]
           eq_refl H1 H2).
  - simpl; lia.
  - simpl; lia.
  - exact H3.
  - apply Exists_cons_tl, Exists_cons_hd. unfold in_band.
    replace (40 mod (screen_width spawn_with_reroll + 1))%Z with 40%Z by reflexivity.
    lia.
Defined.

(** ** Player: seeking the waypoint *)

Lemma distance_sqr (t : RawTurtle) (px py : R) :
  Rsqr (distance t px py) = Rsqr (px - xcor t) + Rsqr (py - ycor t).
Proof.
  unfold distance. apply Rsqr_sqrt.
  apply Rplus_le_le_0_compat; apply Rle_0_sqr.
Qed.

(** Heading for a point at distance [d > 0] and going forward by [s]
    moves the turtle by [s] along the unit vector to the point, and
    leaves it at distance [|d - s|] from the point. *)
Lemma forward_towards (t : RawTurtle) (px py s : R) :
  0 < distance t px py ->
  let d := distance t px py in
  let t' := forward (setheading t (towards t px py)) s in
  xcor t' = xcor t + s * ((px - xcor t) / d)
  /\ ycor t' = ycor t + s * ((py - ycor t) / d)
  /\ distance t' px py = Rabs (d - s).
Proof.
  intros Hd d t'.
  assert (Ex : xcor t' = xcor t + s * ((px - xcor t) / d)).
  { unfold t', towards. fold d. rewrite (proj2 (Rltb_true 0 d) Hd). reflexivity. }
  assert (Ey : ycor t' = ycor t + s * ((py - ycor t) / d)).
  { unfold t', towards. fold d. rewrite (proj2 (Rltb_true 0 d) Hd). reflexivity. }
  split; [exact Ex | split; [exact Ey | ] ].
  pose proof (distance_sqr t px py) as Hsq. fold d in Hsq.
  unfold distance at 1. rewrite Ex, Ey.
  replace (Rsqr (px - (xcor t + s * ((px - xcor t) / d)))
           + Rsqr (py - (ycor t + s * ((py - ycor t) / d))))
    with (Rsqr (d - s)).
  - apply sqrt_Rsqr_abs.
  - unfold Rsqr in *.
    transitivity (((px - xcor t) * (px - xcor t) + (py - ycor t) * (py - ycor t))
                  * (((d - s) / d) * ((d - s) / d))).
    + rewrite <- Hsq. field. unfold d; lra.
    + field. unfold d; lra.
Qed.

(** Whatever the target, the step has length [|s|]. *)
Lemma forward_towards_length (t : RawTurtle) (px py s : R) :
  let t' := forward (setheading t (towards t px py)) s in
  distance t (xcor t') (ycor t') = Rabs s.
Proof.
  cbv zeta. set (d := distance t px py).
  pose proof (distance_sqr t px py) as Hsq. fold d in Hsq.
  unfold distance at 1, towards. fold d.
  destruct (Rltb 0 d) eqn:Hd.
  - apply Rltb_true in Hd.
    change (sqrt (Rsqr (xcor t + s * ((px - xcor t) / d) - xcor t)
                  + Rsqr (ycor t + s * ((py - ycor t) / d) - ycor t)) = Rabs s).
    replace (Rsqr (xcor t + s * ((px - xcor t) / d) - xcor t)
             + Rsqr (ycor t + s * ((py - ycor t) / d) - ycor t))
      with (Rsqr s).
    + apply sqrt_Rsqr_abs.
    + unfold Rsqr in *.
      transitivity (((px - xcor t) * (px - xcor t) + (py - ycor t) * (py - ycor t))
                    * ((s / d) * (s / d))).
      * rewrite <- Hsq. field. lra.
      * field. lra.
  - change (sqrt (Rsqr (xcor t + s * 1 - xcor t) + Rsqr (ycor t + s * 0 - ycor t))
            = Rabs s).
    replace (Rsqr (xcor t + s * 1 - xcor t) + Rsqr (ycor t + s * 0 - ycor t))
      with (Rsqr s) by (unfold Rsqr; ring).
    apply sqrt_Rsqr_abs.
Qed.

(** What [Player.update] leaves behind when the waypoint is active. *)
Lemma Player_update_active (g : TurtleAdventureGame) :
  wp_active (waypoint g) = true ->
  let w := waypoint g in
  let t' := forward (setheading (player_turtle (player g))
                                (towards (player_turtle (player g)) (wp_x w) (wp_y w)))
                    (player_speed (player g)) in
  outcome Player_update g = Ok tt
  /\ player (run Player_update g) = mkPlayer (player_speed (player g)) t'
  /\ waypoint (run Player_update g)
     = mkWaypoint (wp_id1 w) (wp_id2 w)
                  (negb (Rltb (distance t' (wp_x w) (wp_y w)) (player_speed (player g))))
                  (wp_x w) (wp_y w).
Proof.
  intros Hact; cbv zeta.
  unfold Player_update, outcome, run, bind, get, when.
  destruct (Home_contains (home g) (Player_x (player g)) (Player_y (player g)));
    cbn [game_over_win stop modify bind get canvas_create ret fst snd
         set_stopped set_canvas waypoint player];
    unfold game_over_win, stop, modify, bind, get, canvas_create, ret;
    cbn [fst snd set_stopped set_canvas waypoint player];
    rewrite Hact; unfold set_turtle, modify, Waypoint_deactivate;
    cbn [fst snd set_player player waypoint player_speed player_turtle];
    match goal with |- context [Rltb ?a ?b] => destruct (Rltb a b) end;
    cbn; (split; [reflexivity | split; [reflexivity | ] ]);
    try reflexivity;
    destruct (waypoint g) as [i1 i2 act wx wy]; cbn in *; subst act; reflexivity.
Qed.

Lemma Player_update_inactive (g : TurtleAdventureGame) :
  wp_active (waypoint g) = false -> player (run Player_update g) = player g.
Proof.
  intros Hact.
  unfold Player_update, outcome, run, bind, get, when.
  destruct (Home_contains (home g) (Player_x (player g)) (Player_y (player g)));
    unfold game_over_win, stop, modify, bind, get, canvas_create, ret;
    cbn [fst snd set_stopped set_canvas waypoint player];
    rewrite Hact; reflexivity.
Qed.

(** C2.  In a tick in which the waypoint is active, the player's update
    completes, heads the turtle for the waypoint and moves it forward by
    the player's speed: a step of length |speed| which, when the waypoint
    is at distance [d > 0], lands at distance [|d - speed|] from it.  The
    waypoint stays where it is, and it is deactivated exactly when the
    distance left after the step is below the speed; once deactivated, the
    player rests, at most one speed away from the waypoint. *)
Theorem Player_update_seeks_waypoint :
  forall g : TurtleAdventureGame,
    wp_active (waypoint g) = true ->
    let w := waypoint g in
    let t := player_turtle (player g) in
    let s := player_speed (player g) in
    let d := distance t (wp_x w) (wp_y w) in
    let g' := run Player_update g in
    let t' := player_turtle (player g') in
    outcome Player_update g = Ok tt
    /\ t' = forward (setheading t (towards t (wp_x w) (wp_y w))) s
    /\ distance t (xcor t') (ycor t') = Rabs s
    /\ (0 < d ->
          xcor t' = xcor t + s * ((wp_x w - xcor t) / d)
          /\ ycor t' = ycor t + s * ((wp_y w - ycor t) / d)
          /\ distance t' (wp_x w) (wp_y w) = Rabs (d - s))
    /\ player_speed (player g') = s
    /\ wp_x (waypoint g') = wp_x w /\ wp_y (waypoint g') = wp_y w
    /\ (wp_active (waypoint g') = false <-> distance t' (wp_x w) (wp_y w) < s)
    /\ (wp_active (waypoint g') = false ->
          distance t' (wp_x w) (wp_y w) <= s
          /\ player (run Player_update g') = player g').
Proof.
  intros g Hact; cbv zeta.
  destruct (Player_update_active g Hact) as (Hok & Hp & Hw).
  rewrite Hp, Hw. cbn [player_turtle player_speed wp_x wp_y wp_active].
  split; [exact Hok | ].
  split; [reflexivity | ].
  split; [apply forward_towards_length | ].
  split; [intro Hd; apply (forward_towards _ _ _ _ Hd) | ].
  split; [reflexivity | ].
  split; [reflexivity | ].
  split; [reflexivity | ].
  assert (Hiff : forall b, negb (Rltb b (player_speed (player g))) = false
                           <-> b < player_speed (player g)).
  { intro b. rewrite negb_false_iff. apply Rltb_true. }
  split; [apply Hiff | ].
  intro Hoff. split.
  - apply Hiff in Hoff. lra.
  - rewrite <- Hp. apply Player_update_inactive. rewrite Hw. exact Hoff.
Qed.

(** C2 at a game whose waypoint is one step away from the player. *)
Lemma Player_update_seeks_waypoint_witness :
  wp_active (waypoint seeking_game) = true
  /\ outcome Player_update seeking_game = Ok tt
  /\ (wp_active (waypoint (run Player_update seeking_game)) = false <->
        distance (player_turtle (player (run Player_update seeking_game)))
                 (wp_x (waypoint seeking_game)) (wp_y (waypoint seeking_game))
        < player_speed (player seeking_game)).
Proof.
  assert (H : wp_active (waypoint seeking_game) = true) by reflexivity.
  split; [exact H | ].
  pose proof (Player_update_seeks_waypoint seeking_game H) as T.
  cbv zeta in T. split; apply T.
Defined.

(** * Further properties of the code *)

(** ** What a play never changes *)

Lemma length_replace_nth {A} (l : list A) (i : nat) (a : A) :
  List.length (replace_nth i l a) = List.length l.
Proof.
  revert i; induction l as [|b l IH]; intros [|i]; simpl; auto.
Qed.

(** X1.  Whatever happens during a play (ticks, clicks, spawn firings, also
    ones that raise, and resizes of the canvas), the configuration of the
    game stays what it was: the level, the screen dimensions, and the
    generator with its catalog and speed.  No handler assigns them. *)
Theorem configuration_is_constant :
  forall (evs : list Event) (g : TurtleAdventureGame),
    level (play evs g) = level g
    /\ screen_width (play evs g) = screen_width g
    /\ screen_height (play evs g) = screen_height g
    /\ enemy_generator (play evs g) = enemy_generator g.
Proof.
  intros evs g.
  apply (play_respects
           (fun a b => level b = level a
                       /\ screen_width b = screen_width a
                       /\ screen_height b = screen_height a
                       /\ enemy_generator b = enemy_generator a));
    try (intros; repeat split; reflexivity).
  intros a b c (A1 & A2 & A3 & A4) (B1 & B2 & B3 & B4).
  repeat split; congruence.
Qed.

(** X2.  During a play Home keeps its size and its centre, and the player
    keeps its speed: no update, render or spawn assigns them. *)
Theorem home_geometry_and_player_speed_are_constant :
  forall (evs : list Event) (g : TurtleAdventureGame),
    home_size (home (play evs g)) = home_size (home g)
    /\ home_x (home (play evs g)) = home_x (home g)
    /\ home_y (home (play evs g)) = home_y (home g)
    /\ player_speed (player (play evs g)) = player_speed (player g).
Proof.
  intros evs g.
  apply (play_respects
           (fun a b => home_size (home b) = home_size (home a)
                       /\ home_x (home b) = home_x (home a)
                       /\ home_y (home b) = home_y (home a)
                       /\ player_speed (player b) = player_speed (player a)));
    try (intros; repeat split; reflexivity).
  intros a b c (A1 & A2 & A3 & A4) (B1 & B2 & B3 & B4).
  repeat split; congruence.
Qed.

(** X3.  Game over is final: once the game is stopped, no tick, click or
    spawn firing starts it again. *)
Theorem game_over_is_final :
  forall (evs : list Event) (g : TurtleAdventureGame),
    stopped g = true -> stopped (play evs g) = true.
Proof.
  intros evs g.
  apply (play_respects (fun a b => stopped a = true -> stopped b = true));
    intros; cbn in *; auto.
Qed.

Lemma game_over_is_final_witness :
  stopped lost_game = true
  /\ stopped (play [ev_timer [2%Z]; ev_click 300 200; ev_tick []] lost_game) = true.
Proof.
  assert (H : stopped lost_game = true) by reflexivity.
  split; [exact H | ].
  exact (game_over_is_final [ev_timer [2%Z]; ev_click 300 200; ev_tick []] lost_game H).
Defined.

(** X4.  The collection of entities never shrinks: no event of a play
    takes an entity out of it. *)
Theorem collection_never_shrinks :
  forall (evs : list Event) (g : TurtleAdventureGame),
    (List.length (elements g) <= List.length (elements (play evs g)))%nat.
Proof.
  intros evs g.
  apply (play_respects
           (fun a b => (List.length (elements a) <= List.length (elements b))%nat));
    try (intros; cbn; lia).
  - intros; cbn [elements set_elements]. rewrite length_app; simpl; lia.
  - intros; cbn [elements set_elements]. rewrite length_replace_nth; lia.
Qed.

(** ** Rendering *)

(** X5.  Rendering only draws.  For every entity and every game, [render]
    changes nothing of the game but the canvas it draws on (no entity,
    flag, timer or random draw) and allocates no canvas item.  For an
    entity that has been created it completes.  For Home and for the
    waypoint, whose canvas items exist only once [create] has run,
    [render] before [create] raises [AttributeError] and draws
    nothing. *)
Theorem render_only_draws :
  forall (e : GameElement) (g : TurtleAdventureGame),
    (exists ops : list CanvasOp, canvas (run (render_element e) g) = canvas g ++ ops)
    /\ next_id (run (render_element e) g) = next_id g
    /\ set_canvas (run (render_element e) g) (canvas g) (next_id g) = g
    /\ (created g e -> outcome (render_element e) g = Ok tt)
    /\ (home_id (home g) = None ->
        outcome Home_render g = Raise AttributeError /\ run Home_render g = g)
    /\ (wp_id1 (waypoint g) = None ->
        outcome Waypoint_render g = Raise AttributeError /\ run Waypoint_render g = g).
Proof.
  intros e g.
  assert (Hhome : home_id (home g) = None ->
                  outcome Home_render g = Raise AttributeError /\ run Home_render g = g).
  { intro H.
    assert (E : Home_render g = (Raise AttributeError, g)).
    { unfold Home_render. rewrite (bind_eq get _ g g g eq_refl). cbv zeta.
      unfold bind. rewrite H. reflexivity. }
    unfold outcome, run. rewrite E. split; reflexivity. }
  assert (Hwp : wp_id1 (waypoint g) = None ->
                outcome Waypoint_render g = Raise AttributeError
                /\ run Waypoint_render g = g).
  { intro H.
    assert (E : Waypoint_render g = (Raise AttributeError, g)).
    { unfold Waypoint_render. rewrite (bind_eq get _ g g g eq_refl). cbv zeta.
      destruct (wp_active (waypoint g)); unfold bind at 1; rewrite H; reflexivity. }
    unfold outcome, run. rewrite E. split; reflexivity. }
  assert (Hmain : (exists ops : list CanvasOp,
                      canvas (run (render_element e) g) = canvas g ++ ops)
                  /\ next_id (run (render_element e) g) = next_id g
                  /\ set_canvas (run (render_element e) g) (canvas g) (next_id g) = g
                  /\ (created g e -> outcome (render_element e) g = Ok tt)).
  { clear Hhome Hwp. destruct g.
    destruct e; unfold render_element, Waypoint_render, Home_render, Player_render,
      RandomWalkEnemy_render, ChasingEnemy_render, FencingEnemy_render,
      DeDestroyerEnemy_render, Bomb_render, Enemy_render, created, outcome, run, bind, get,
      canvas_do, modify, attribute, raise, ret;
      cbn [waypoint home player canvas next_id fst snd set_canvas];
      repeat match goal with
        | |- context [if ?b then _ else _] => destruct b
        | |- context [match wp_id1 ?w with _ => _ end] => destruct (wp_id1 w)
        | |- context [match wp_id2 ?w with _ => _ end] => destruct (wp_id2 w)
        | |- context [match home_id ?h with _ => _ end] => destruct (home_id h)
        end;
      cbn [waypoint home player canvas next_id fst snd set_canvas level screen_width
           screen_height enemies enemy_generator elements stopped winfo_width scheduled tape];
      (split; [rewrite <- ?app_assoc; first [eexists; reflexivity
                                            | exists []; rewrite app_nil_r; reflexivity]
              | split; [reflexivity | split; [reflexivity | ] ] ]);
      try (intros _; reflexivity);
      try (intros [H1 H2]; congruence);
      try (intros H1; congruence). }
  destruct Hmain as (H1 & H2 & H3 & H4).
  split; [exact H1 | ]. split; [exact H2 | ]. split; [exact H3 | ]. split; [exact H4 | ].
  split; [exact Hhome | exact Hwp].
Qed.

(** X5 at the Home of a freshly constructed game, and at a Home that was
    never created. *)
Lemma render_only_draws_witness :
  created (initial_game 800 500 1 800) TheHome
  /\ outcome (render_element TheHome) (initial_game 800 500 1 800) = Ok tt
  /\ home_id (home (TurtleAdventureGame_new 800 500 1 800)) = None
  /\ outcome Home_render (TurtleAdventureGame_new 800 500 1 800) = Raise AttributeError.
Proof.
  assert (Hc : created (initial_game 800 500 1 800) TheHome) by (cbn; discriminate).
  assert (Hn : home_id (home (TurtleAdventureGame_new 800 500 1 800)) = None)
    by reflexivity.
  split; [exact Hc | ].
  split; [exact (proj1 (proj2 (proj2 (proj2
                   (render_only_draws TheHome (initial_game 800 500 1 800))))) Hc) | ].
  split; [exact Hn | ].
  exact (proj1 (proj1 (proj2 (proj2 (proj2 (proj2
           (render_only_draws TheHome (TurtleAdventureGame_new 800 500 1 800)))))) Hn)).
Defined.

(** ** Updates *)

Lemma bind_Ok_inv {A B} (m : M A) (k : A -> M B) (g : TurtleAdventureGame) (b : B) :
  outcome (bind m k) g = Ok b ->
  exists a, outcome m g = Ok a /\ outcome (k a) (run m g) = Ok b.
Proof.
  unfold outcome, run, bind. destruct (m g) as [[a| |] g1]; simpl; intro H;
    try discriminate. exists a; auto.
Qed.

Lemma lose_if_hit_then_ret {A} (e : Enemy) (a a' : A) (g : TurtleAdventureGame) :
  outcome (lose_if_hit e ;; ret a) g = Ok a' -> a' = a.
Proof.
  intro H. apply bind_Ok_inv in H. destruct H as (u & _ & H).
  unfold outcome, ret in H; simpl in H. congruence.
Qed.

Lemma update_element_same_entity (e e' : GameElement) (g : TurtleAdventureGame) :
  outcome (update_element e) g = Ok e' -> same_entity e e'.
Proof.
  intros H. destruct e; unfold update_element in H.
  - apply bind_Ok_inv in H; destruct H as (u & _ & H); inversion H; exact I.
  - apply bind_Ok_inv in H; destruct H as (u & _ & H); inversion H; exact I.
  - apply bind_Ok_inv in H; destruct H as (u & _ & H); inversion H; exact I.
  - (* walker *)
    apply bind_Ok_inv in H; destruct H as (w & Hw & H). inversion H; subst e'.
    unfold RandomWalkEnemy_update in Hw.
    apply bind_Ok_inv in Hw; destruct Hw as (w1 & Hs & Hw).
    apply lose_if_hit_then_ret in Hw; subst w1.
    unfold RandomWalkEnemy_state, RandomWalkEnemy_left, RandomWalkEnemy_right in Hs.
    destruct (rw_state e).
    + destruct (Rltb _ _).
      * inversion Hs; cbn; auto.
      * apply bind_Ok_inv in Hs; destruct Hs as (r & _ & Hs). inversion Hs; cbn; auto.
    + apply bind_Ok_inv in Hs; destruct Hs as (g0 & _ & Hs).
      destruct (Rltb _ _).
      * inversion Hs; cbn; auto.
      * apply bind_Ok_inv in Hs; destruct Hs as (r & _ & Hs). inversion Hs; cbn; auto.
  - (* chaser *)
    apply bind_Ok_inv in H; destruct H as (c & Hc & H). inversion H; subst e'.
    rewrite ChasingEnemy_update_ok in Hc. inversion Hc; subst c.
    unfold ChasingEnemy_ystate, ChasingEnemy_xstate, ChasingEnemy_left, ChasingEnemy_right,
      ChasingEnemy_up, ChasingEnemy_down.
    destruct (ch_xstate e); destruct (Rltb _ _); cbn;
      destruct (ch_ystate e); destruct (Rltb _ _); cbn; auto.
  - (* patroller *)
    apply bind_Ok_inv in H; destruct H as (f & Hf & H). inversion H; subst e'.
    rewrite FencingEnemy_update_ok in Hf. inversion Hf; subst f.
    cbn. pose proof (FencingEnemy_state_route e) as Hr.
    repeat split; try apply Hr;
      unfold FencingEnemy_state, FencingEnemy_down, FencingEnemy_right, FencingEnemy_up,
        FencingEnemy_left;
      destruct (fe_state e); destruct (Rleb _ _); reflexivity.
  - (* bombardier *)
    apply bind_Ok_inv in H; destruct H as (d & Hd & H). inversion H; subst e'.
    unfold DeDestroyerEnemy_update in Hd.
    apply bind_Ok_inv in Hd; destruct Hd as (u & _ & Hd).
    inversion Hd; cbn; repeat split; lia.
  - (* bomb *)
    apply bind_Ok_inv in H; destruct H as (b' & Hb & H). inversion H; subst e'.
    rewrite (proj1 (Bomb_update_spec g b)) in Hb. inversion Hb; cbn; repeat split; lia.
Qed.

(** ** DeDestroyerEnemy *)

(** X6.  On an update that brings its timer to a multiple of 20, with two
    draws available, a bombardier throws one bomb: the update completes,
    the bomb is registered last in the collection with timer 0 and size
    30 * level, between 50 below and 51 above the player's position on
    each axis.  The throw neither moves the player nor stops the game. *)
Theorem DeDestroyerEnemy_throws_every_20th_tick :
  forall (g : TurtleAdventureGame) (d : DeDestroyerEnemy) (rx ry : Z) (rest : list Z),
    ((dd_timer d + 1) mod 20 = 0)%Z ->
    tape g = rx :: ry :: rest ->
    let b := thrown_bomb g rx ry in
    outcome (DeDestroyerEnemy_update d) g
    = Ok (mkDeDestroyer (dd_enemy d) (dd_id d) (dd_id2 d) (dd_id3 d) (dd_color2 d)
                        (dd_timer d + 1) (distance_barrel d))
    /\ elements (run (DeDestroyerEnemy_update d) g)
       = elements g ++ [ABomb (mkBomb (bomb_enemy b) (Some (next_id g)) 0)]
    /\ size (bomb_enemy b) = (level g * 30)%Z
    /\ Player_x (player g) - 50 <= x (bomb_enemy b) <= Player_x (player g) + 51
    /\ Player_y (player g) - 50 <= y (bomb_enemy b) <= Player_y (player g) + 51
    /\ stopped (run (DeDestroyerEnemy_update d) g) = stopped g
    /\ player (run (DeDestroyerEnemy_update d) g) = player g.
Proof.
  intros g d rx ry rest Hmod Ht; cbv zeta.
  assert (Hrun : DeDestroyerEnemy_update d g
                 = (Ok (mkDeDestroyer (dd_enemy d) (dd_id d) (dd_id2 d) (dd_id3 d)
                                      (dd_color2 d) (dd_timer d + 1) (distance_barrel d)),
                    snd (add_element (ABomb (thrown_bomb g rx ry)) (set_tape g rest)))).
  { unfold DeDestroyerEnemy_update. cbn [dd_timer].
    replace ((dd_timer d + 1) mod 20 =? 0)%Z with true
      by (symmetry; apply Z.eqb_eq; exact Hmod).
    unfold when.
    rewrite (bind_eq _ _ g (snd (add_element (ABomb (thrown_bomb g rx ry)) (set_tape g rest))) tt);
      [reflexivity | ].
    rewrite (bind_eq get _ g g g eq_refl).
    rewrite (bind_eq _ _ _ _ _ (randint_ok (-50) 51 g rx (ry :: rest) ltac:(lia) Ht)).
    rewrite (bind_eq _ _ _ _ _
               (randint_ok (-50) 51 (set_tape g (ry :: rest)) ry rest ltac:(lia) eq_refl)).
    reflexivity. }
  unfold outcome, run. rewrite Hrun. cbn [fst snd].
  pose proof (randint_range (-50) 51 rx ltac:(lia)) as Hx.
  pose proof (randint_range (-50) 51 ry ltac:(lia)) as Hy.
  change (51 - -50 + 1)%Z with 102%Z in Hx, Hy.
  destruct Hx as [Hx1 Hx2]; destruct Hy as [Hy1 Hy2].
  apply IZR_le in Hx1, Hx2, Hy1, Hy2.
  repeat split; try reflexivity; cbn [thrown_bomb bomb_enemy x y]; lra.
Qed.

Lemma DeDestroyerEnemy_throws_every_20th_tick_witness :
  ((dd_timer (mkDeDestroyer (mkEnemy 400 100 20 "black") (Some 4%nat) (Some 5%nat) None
                            "black" 19 50) + 1) mod 20 = 0)%Z
  /\ tape (set_tape (initial_game 800 500 2 800) [7; 130]%Z) = [7; 130]%Z
  /\ stopped (run (DeDestroyerEnemy_update
                     (mkDeDestroyer (mkEnemy 400 100 20 "black") (Some 4%nat) (Some 5%nat)
                                    None "black" 19 50))
                  (set_tape (initial_game 800 500 2 800) [7; 130]%Z))
     = stopped (set_tape (initial_game 800 500 2 800) [7; 130]%Z).
Proof.
  assert (H1 : ((dd_timer (mkDeDestroyer (mkEnemy 400 100 20 "black") (Some 4%nat)
                                         (Some 5%nat) None "black" 19 50) + 1) mod 20 = 0)%Z)
    by reflexivity.
  assert (H2 : tape (set_tape (initial_game 800 500 2 800) [7; 130]%Z) = [7; 130]%Z)
    by reflexivity.
  split; [exact H1 | split; [exact H2 | ] ].
  apply (DeDestroyerEnemy_throws_every_20th_tick _ _ 7 130 [] H1 H2).
Defined.


(** X7.  A bombardier never ends the game and never moves anything: its
    update leaves the stopped flag, the player, the waypoint and the
    entities already registered as they are, whatever the random stream;
    on an update that does not bring its timer to a multiple of 20 it
    leaves the whole game as it is. *)
Theorem DeDestroyerEnemy_is_harmless_itself :
  forall (g : TurtleAdventureGame) (d : DeDestroyerEnemy),
    stopped (run (DeDestroyerEnemy_update d) g) = stopped g
    /\ player (run (DeDestroyerEnemy_update d) g) = player g
    /\ waypoint (run (DeDestroyerEnemy_update d) g) = waypoint g
    /\ keeps_entries g (run (DeDestroyerEnemy_update d) g)
    /\ (((dd_timer d + 1) mod 20 <> 0)%Z ->
        outcome (DeDestroyerEnemy_update d) g
        = Ok (mkDeDestroyer (dd_enemy d) (dd_id d) (dd_id2 d) (dd_id3 d) (dd_color2 d)
                            (dd_timer d + 1) (distance_barrel d))
        /\ run (DeDestroyerEnemy_update d) g = g).
Proof.
  intros g d. unfold DeDestroyerEnemy_update, outcome, run. cbn [dd_timer].
  destruct ((dd_timer d + 1) mod 20 =? 0)%Z eqn:E.
  - apply Z.eqb_eq in E.
    unfold when, bind, get, randint. cbn [Z.ltb Z.compare].
    destruct (tape g) as [|r1 [|r2 t]]; cbn;
      (split; [reflexivity | split; [reflexivity | split; [reflexivity | split ] ] ]);
      try (intro; lia); try (intros i e Hi; exact Hi).
    intros i e Hi. unfold set_elements. cbn [elements]. rewrite nth_error_app1; [exact Hi | ].
    apply nth_error_Some; congruence.
  - cbn. repeat split; try reflexivity. intros i e Hi; exact Hi.
Qed.

Lemma DeDestroyerEnemy_is_harmless_itself_witness :
  ((dd_timer (DeDestroyerEnemy_new 20 "black" 6) + 1) mod 20 <> 0)%Z
  /\ run (DeDestroyerEnemy_update (DeDestroyerEnemy_new 20 "black" 6))
         (initial_game 800 500 2 800)
     = initial_game 800 500 2 800.
Proof.
  assert (H : ((dd_timer (DeDestroyerEnemy_new 20 "black" 6) + 1) mod 20 <> 0)%Z)
    by (vm_compute; discriminate).
  split; [exact H | ].
  exact (proj2 (proj2 (proj2 (proj2 (proj2
           (DeDestroyerEnemy_is_harmless_itself (initial_game 800 500 2 800)
              (DeDestroyerEnemy_new 20 "black" 6))))) H)).
Defined.

(** ** EnemyGenerator: firings *)

Lemma add_element_total (e : GameElement) (g : TurtleAdventureGame) :
  exists (e' : GameElement) (g' : TurtleAdventureGame),
    add_element e g = (Ok tt, g')
    /\ elements g' = elements g ++ [e']
    /\ level g' = level g /\ scheduled g' = scheduled g.
Proof.
  destruct e; eexists; eexists; (split; [reflexivity | ]); cbn; auto.
Qed.

Lemma reroll_raises (width : Z) (draws : list Z) :
  forall (ex : Z) (e : exn), fst (reroll width ex draws) = Raise e -> e = ValueError.
Proof.
  induction draws as [|r draws IH]; intros ex e; rewrite reroll_eq;
    destruct ((40 <? ex) && (ex <? 60))%Z; destruct (width <? 0)%Z; cbn;
    try congruence.
  apply IH.
Qed.

Lemma create_enemy_at_level_zero (g : TurtleAdventureGame) :
  level g = 0%Z ->
  outcome EnemyGenerator_create_enemy g <> Ok tt
  /\ scheduled (run EnemyGenerator_create_enemy g) = scheduled g
  /\ (outcome EnemyGenerator_create_enemy g = Raise ZeroDivisionError ->
      exists e, elements (run EnemyGenerator_create_enemy g) = elements g ++ [e]).
Proof.
  intro Hlvl.
  assert (Hadd : forall e g1,
             level g1 = 0%Z -> scheduled g1 = scheduled g -> elements g1 = elements g ->
             exists e' g',
               bind (add_element e)
                    (fun _ => bind get (fun g2 => bind (spawn_delay (level g2))
                                 (fun delay => after delay cb_create_enemy))) g1
               = (Raise ZeroDivisionError, g')
               /\ scheduled g' = scheduled g /\ elements g' = elements g ++ [e']).
  { intros e g1 H1 H2 H3.
    destruct (add_element_total e g1) as (e' & g' & Ha & He & Hl & Hs).
    exists e', g'. rewrite (bind_eq _ _ _ _ _ Ha).
    rewrite (bind_eq get _ g' g' g' eq_refl).
    unfold bind, spawn_delay. rewrite Hl, H1. cbn.
    split; [reflexivity | split; congruence]. }
  set (P := fun r : result unit * TurtleAdventureGame =>
              fst r <> Ok tt /\ scheduled (snd r) = scheduled g
              /\ (fst r = Raise ZeroDivisionError ->
                  exists e', elements (snd r) = elements g ++ [e'])).
  assert (Hfin : forall e g1,
             level g1 = 0%Z -> scheduled g1 = scheduled g -> elements g1 = elements g ->
             P (bind (add_element e)
                  (fun _ => bind get (fun g2 => bind (spawn_delay (level g2))
                               (fun delay => after delay cb_create_enemy))) g1)).
  { intros e g1 H1 H2 H3.
    destruct (Hadd e g1 H1 H2 H3) as (e' & g' & E & Hs & He). rewrite E. unfold P; cbn.
    split; [discriminate | split; [exact Hs | intros _; exists e'; exact He] ]. }
  clear Hadd.
  assert (Hstop : forall (r : result unit) (g1 : TurtleAdventureGame),
             r <> Ok tt -> r <> Raise ZeroDivisionError ->
             scheduled g1 = scheduled g -> P (r, g1)).
  { intros r g1 H1 H2 H3. unfold P; cbn. split; [exact H1 | split; [exact H3 | tauto] ]. }
  change (P (EnemyGenerator_create_enemy g)).
  unfold EnemyGenerator_create_enemy.
  unfold bind at 1. unfold get at 1. cbv beta iota.
  unfold bind at 1. unfold random_choice.
  destruct (map fst (enemy_dict (enemy_generator g))) as [|c0 l] eqn:El.
  { apply Hstop; [discriminate | discriminate | reflexivity]. }
  destruct (tape g) as [|r0 rest0] eqn:Et.
  { apply Hstop; [discriminate | discriminate | reflexivity]. }
  cbv beta iota.
  set (cls := nth _ (c0 :: l) c0).
  destruct (String.eqb (fst (dict_get (enemy_dict (enemy_generator g)) cls)) "home").
  - unfold bind at 1. unfold ret at 1. cbv beta iota.
    apply Hfin; [exact Hlvl | reflexivity | reflexivity].
  - unfold bind at 1. unfold bind at 1. unfold randint at 1.
    destruct (screen_width g <? 0)%Z.
    { apply Hstop; [discriminate | discriminate | reflexivity]. }
    cbn [tape set_tape].
    destruct rest0 as [|r1 rest1].
    { apply Hstop; [discriminate | discriminate | reflexivity]. }
    cbv beta iota. unfold bind at 1. unfold randint at 1.
    destruct (screen_height g <? 0)%Z.
    { apply Hstop; [discriminate | discriminate | reflexivity]. }
    cbn [tape set_tape].
    destruct rest1 as [|r2 rest2].
    { apply Hstop; [discriminate | discriminate | reflexivity]. }
    cbv beta iota. unfold bind at 1. unfold reroll_x.
    cbn [tape set_tape].
    match goal with
    | |- context [reroll ?w ?ex ?t] =>
        pose proof (reroll_raises w t ex) as Hr;
        destruct (reroll w ex t) as [[ex'|ex'|] rest3]
    end.
    + cbv beta iota. unfold ret at 1. cbv beta iota.
      apply Hfin; [exact Hlvl | reflexivity | reflexivity].
    + apply Hstop; [discriminate | | reflexivity].
      intro H. specialize (Hr ex' eq_refl). congruence.
    + apply Hstop; [discriminate | discriminate | reflexivity].
Qed.

(** X8.  At level 0 the spawn timer dies at its first firing: the firing
    never completes and never schedules the next one.  When what stops it
    is the division [4000 / level], the enemy it was creating has already
    been registered, last in the collection. *)
Theorem spawning_ends_at_level_zero :
  forall (g : TurtleAdventureGame) (d : Z) (rest : list (Z * Callback)),
    level g = 0%Z ->
    scheduled g = (d, cb_create_enemy) :: rest ->
    outcome fire_timer g <> Ok tt
    /\ scheduled (run fire_timer g) = rest
    /\ (outcome fire_timer g = Raise ZeroDivisionError ->
        exists e, elements (run fire_timer g) = elements g ++ [e]).
Proof.
  intros g d rest Hlvl Hs.
  assert (E : fire_timer g = EnemyGenerator_create_enemy (set_scheduled g rest)).
  { unfold fire_timer. rewrite (bind_eq get _ g g g eq_refl). rewrite Hs.
    unfold bind at 1, modify. reflexivity. }
  unfold outcome, run. rewrite E.
  apply (create_enemy_at_level_zero (set_scheduled g rest)). exact Hlvl.
Qed.

Lemma spawning_ends_at_level_zero_witness :
  level (set_tape (initial_game 800 500 0 800) [2]%Z) = 0%Z
  /\ scheduled (set_tape (initial_game 800 500 0 800) [2]%Z) = [(100%Z, cb_create_enemy)]
  /\ outcome fire_timer (set_tape (initial_game 800 500 0 800) [2]%Z)
     = Raise ZeroDivisionError
  /\ scheduled (run fire_timer (set_tape (initial_game 800 500 0 800) [2]%Z)) = []
  /\ List.length (elements (run fire_timer (set_tape (initial_game 800 500 0 800) [2]%Z)))
     = 4%nat.
Proof.
  pose proof (spawning_ends_at_level_zero (set_tape (initial_game 800 500 0 800) [2]%Z)
                100 [] eq_refl eq_refl) as (_ & H2 & H3).
  assert (Ho : outcome fire_timer (set_tape (initial_game 800 500 0 800) [2]%Z)
               = Raise ZeroDivisionError) by reflexivity.
  split; [reflexivity | split; [reflexivity | split; [exact Ho | split; [exact H2 | ] ] ] ].
  destruct (H3 Ho) as (e & He). rewrite He. rewrite length_app. reflexivity.
Defined.

(** ** RandomWalkEnemy: speeds below 2 *)

Lemma RandomWalkEnemy_state_step (w : RandomWalkEnemy) (g : TurtleAdventureGame) :
  (rw_state w = walk_left -> 0 <= x (rw_enemy w)) ->
  (rw_state w = walk_right -> x (rw_enemy w) <= IZR (winfo_width g)) ->
  ((rw_speed w <= 1)%Z /\ RandomWalkEnemy_state w g = (Raise ValueError, g))
  \/ ((2 <= rw_speed w)%Z
      /\ (outcome (RandomWalkEnemy_state w) g = TapeEnd
          \/ exists w', outcome (RandomWalkEnemy_state w) g = Ok w')).
Proof.
  intros Hl Hr.
  assert (Est : exists a b : Z,
             ((b < a)%Z <-> (rw_speed w <= 1)%Z)
             /\ RandomWalkEnemy_state w g
                = bind (randint a b)
                    (fun r => ret (rw_with_enemy w
                                     (set_x (rw_enemy w) (x (rw_enemy w) + IZR r)))) g).
  { unfold RandomWalkEnemy_state. destruct (rw_state w) eqn:Es.
    - specialize (Hl eq_refl).
      exists (- rw_speed w)%Z, (rw_speed w - 4 + 1)%Z. split; [lia | ].
      unfold RandomWalkEnemy_left.
      replace (Rltb (x (rw_enemy w)) 0) with false
        by (symmetry; apply Rltb_false; exact Hl).
      reflexivity.
    - specialize (Hr eq_refl).
      exists (- rw_speed w + 4)%Z, (rw_speed w + 1)%Z. split; [lia | ].
      unfold RandomWalkEnemy_right.
      rewrite (bind_eq get _ g g g eq_refl).
      replace (Rltb (IZR (winfo_width g)) (x (rw_enemy w))) with false
        by (symmetry; apply Rltb_false; exact Hr).
      reflexivity. }
  destruct Est as (a & b & Hab & Est). unfold outcome. rewrite Est.
  unfold bind, randint.
  destruct (b <? a)%Z eqn:E.
  - apply Z.ltb_lt in E. left. split; [lia | reflexivity].
  - apply Z.ltb_ge in E. right. split; [lia | ].
    destruct (tape g) as [|r rest]; [left; reflexivity | right; eexists; reflexivity].
Qed.

(** X9.  A walker that has to move (it is not at the boundary where it
    only turns round) draws its step from an empty range when its speed
    is 1 or less, which is the case at every level below 1: the update
    then raises [ValueError] before anything is changed.  With a speed
    of 2 or more it never raises it. *)
Theorem RandomWalkEnemy_raises_below_speed_2 :
  forall (w : RandomWalkEnemy) (g : TurtleAdventureGame),
    (rw_state w = walk_left -> 0 <= x (rw_enemy w)) ->
    (rw_state w = walk_right -> x (rw_enemy w) <= IZR (winfo_width g)) ->
    (outcome (RandomWalkEnemy_update w) g = Raise ValueError <-> (rw_speed w <= 1)%Z)
    /\ ((rw_speed w <= 1)%Z -> run (RandomWalkEnemy_update w) g = g).
Proof.
  intros w g Hl Hr.
  destruct (RandomWalkEnemy_state_step w g Hl Hr) as [[Hs E] | [Hs [E | [w' E] ] ] ].
  - assert (Eu : RandomWalkEnemy_update w g = (Raise ValueError, g))
      by (unfold RandomWalkEnemy_update, bind; rewrite E; reflexivity).
    unfold outcome, run; rewrite Eu; cbn. tauto.
  - assert (Eu : outcome (RandomWalkEnemy_update w) g = TapeEnd).
    { unfold outcome in *. unfold RandomWalkEnemy_update, bind.
      destruct (RandomWalkEnemy_state w g) as [[a|e|] g']; cbn in *;
        try discriminate E; reflexivity. }
    rewrite Eu. split; [split; [discriminate | lia] | lia].
  - assert (Eu : outcome (RandomWalkEnemy_update w) g = Ok w')
      by (apply (then_lose_if_hit _ rw_enemy); exact E).
    rewrite Eu. split; [split; [discriminate | lia] | lia].
Qed.

Lemma RandomWalkEnemy_raises_below_speed_2_witness :
  outcome (RandomWalkEnemy_update (RandomWalkEnemy_new 20 "purple" 0))
          (set_tape (initial_game 800 500 0 800) [5]%Z)
  = Raise ValueError.
Proof.
  apply (RandomWalkEnemy_raises_below_speed_2 (RandomWalkEnemy_new 20 "purple" 0)
           (set_tape (initial_game 800 500 0 800) [5]%Z)).
  - intro H; discriminate H.
  - intros _. cbn. lra.
  - cbn. lia.
Defined.

(** ** FencingEnemy: speeds that are not positive *)

(** X10.  A patroller whose speed is not positive never turns: started
    above the bottom side in the state down, which is how the scheduler
    spawns it, it is still in the state down after any number of ticks,
    its x as it was and its y changed by the speed on every tick.  With
    speed 0 (level 0) it stays where it was spawned; with a negative
    speed it drifts upward without bound and never comes back. *)
Theorem FencingEnemy_never_turns_without_speed :
  forall (n : nat) (f : FencingEnemy),
    fe_state f = fence_down ->
    fe_speed f <= 0 ->
    y (fe_enemy f) < home_bottom f ->
    fe_state (patrol n f) = fence_down
    /\ x (fe_enemy (patrol n f)) = x (fe_enemy f)
    /\ y (fe_enemy (patrol n f)) = y (fe_enemy f) + INR n * fe_speed f.
Proof.
  induction n as [|n IH]; intros f Hs Hv Hy.
  - cbn [patrol INR]. repeat split; [exact Hs | lra].
  - rewrite patrol_S.
    assert (E : FencingEnemy_state f
                = fe_with_enemy f (set_y (fe_enemy f) (y (fe_enemy f) + fe_speed f))).
    { unfold FencingEnemy_state; rewrite Hs. unfold FencingEnemy_down.
      replace (Rleb (home_bottom f) (y (fe_enemy f))) with false
        by (symmetry; apply Rleb_false; exact Hy).
      reflexivity. }
    rewrite E.
    destruct (IH (fe_with_enemy f (set_y (fe_enemy f) (y (fe_enemy f) + fe_speed f))))
      as (H1 & H2 & H3).
    + exact Hs.
    + exact Hv.
    + cbn. lra.
    + rewrite H1, H2, H3. rewrite S_INR. cbn [fe_with_enemy fe_enemy fe_speed set_y x y].
      repeat split; lra.
Qed.

Lemma FencingEnemy_never_turns_without_speed_witness :
  fe_state (patrol 40 (FencingEnemy_spawned (initial_game 800 500 (-1) 800) (-3) (Some 4%nat)))
  = fence_down
  /\ y (fe_enemy (patrol 40 (FencingEnemy_spawned (initial_game 800 500 (-1) 800) (-3)
                                                   (Some 4%nat))))
     = 220 + INR 40 * (-3 / 4).
Proof.
  destruct (FencingEnemy_never_turns_without_speed 40
              (FencingEnemy_spawned (initial_game 800 500 (-1) 800) (-3) (Some 4%nat)))
    as (H1 & _ & H3).
  - reflexivity.
  - cbn. lra.
  - cbn. unfold half. lra.
  - split; [exact H1 | ]. rewrite H3. cbn [FencingEnemy_spawned]. 
    cbn -[INR]. unfold half. lra.
Defined.

(** ** Player: arriving *)

(** One update of a player of positive speed whose waypoint is active:
    two steps away or more, it gets one step closer and goes on; closer
    than that (but not on the waypoint), it stops seeking, less than one
    step away; on the waypoint itself it steps away. *)
Lemma Player_update_step (g : TurtleAdventureGame) :
  wp_active (waypoint g) = true ->
  0 < player_speed (player g) ->
  let s := player_speed (player g) in
  let g' := run Player_update g in
  player_speed (player g') = s
  /\ wp_x (waypoint g') = wp_x (waypoint g) /\ wp_y (waypoint g') = wp_y (waypoint g)
  /\ (2 * s <= to_waypoint g ->
      wp_active (waypoint g') = true /\ to_waypoint g' = to_waypoint g - s)
  /\ (0 < to_waypoint g < 2 * s ->
      wp_active (waypoint g') = false /\ to_waypoint g' < s)
  /\ (to_waypoint g = 0 ->
      wp_active (waypoint g') = true /\ to_waypoint g' = s).
Proof.
  intros Hact Hs; cbv zeta.
  destruct (Player_update_active g Hact) as (_ & Hp & Hw).
  unfold to_waypoint. rewrite Hp, Hw.
  cbn [player_speed player_turtle wp_x wp_y wp_active].
  set (t := player_turtle (player g)) in *.
  set (s := player_speed (player g)) in *.
  set (wx := wp_x (waypoint g)) in *. set (wy := wp_y (waypoint g)) in *.
  split; [reflexivity | split; [reflexivity | split; [reflexivity | ] ] ].
  split; [ | split].
  - intro Hd.
    assert (H0 : 0 < distance t wx wy) by lra.
    destruct (forward_towards t wx wy s H0) as (_ & _ & E). cbv zeta in E.
    rewrite E. rewrite Rabs_right by lra.
    split; [ | reflexivity].
    apply negb_true_iff, Rltb_false. lra.
  - intros [H0 Hd].
    destruct (forward_towards t wx wy s H0) as (_ & _ & E). cbv zeta in E.
    rewrite E.
    assert (Ha : Rabs (distance t wx wy - s) < s) by (apply Rabs_lt_iff; lra).
    split; [ | exact Ha].
    apply negb_false_iff, Rltb_true. exact Ha.
  - intro H0.
    pose proof (forward_towards_length t wx wy s) as E. cbv zeta in E.
    pose proof (distance_sqr t wx wy) as Hsq. rewrite H0 in Hsq.
    assert (Hx : wx - xcor t = 0).
    { apply Rsqr_0_uniq. pose proof (Rle_0_sqr (wx - xcor t)).
      pose proof (Rle_0_sqr (wy - ycor t)). rewrite Rsqr_0 in Hsq. lra. }
    assert (Hy : wy - ycor t = 0).
    { apply Rsqr_0_uniq. pose proof (Rle_0_sqr (wx - xcor t)).
      pose proof (Rle_0_sqr (wy - ycor t)). rewrite Rsqr_0 in Hsq. lra. }
    assert (Ed : distance (forward (setheading t (towards t wx wy)) s) wx wy = s).
    { unfold towards. rewrite H0.
      replace (Rltb 0 0) with false by (symmetry; apply Rltb_false; lra).
      unfold distance, forward, setheading, xcor, ycor in *. cbn [position orient vx vy] in *.
      replace (wx - (vx (position t) + s * 1)) with (- s) by lra.
      replace (wy - (vy (position t) + s * 0)) with 0 by lra.
      rewrite Rsqr_0, Rplus_0_r, <- Rsqr_neg. apply sqrt_Rsqr. lra. }
    rewrite Ed. split; [ | reflexivity].
    apply negb_true_iff, Rltb_false. lra.
Qed.

Lemma Player_arrives_within (N : nat) :
  forall g : TurtleAdventureGame,
    wp_active (waypoint g) = true ->
    0 < player_speed (player g) ->
    0 < to_waypoint g < (INR N + 2) * player_speed (player g) ->
    exists n : nat,
      wp_active (waypoint (Player_updates n g)) = false
      /\ to_waypoint (Player_updates n g) < player_speed (player g)
      /\ player_speed (player (Player_updates n g)) = player_speed (player g)
      /\ wp_x (waypoint (Player_updates n g)) = wp_x (waypoint g)
      /\ wp_y (waypoint (Player_updates n g)) = wp_y (waypoint g)
      /\ (forall m, (m < n)%nat -> wp_active (waypoint (Player_updates m g)) = true)
      /\ INR n * player_speed (player g) < to_waypoint g + player_speed (player g).
Proof.
  induction N as [|N IH]; intros g Hact Hs Hd;
    destruct (Player_update_step g Hact Hs) as (Es & Ex & Ey & Hfar & Hnear & _).
  - cbn [INR] in Hd.
    destruct Hnear as (Hoff & Hlt); [lra | ].
    exists 1%nat. cbn [Player_updates INR].
    repeat split; try assumption; try lra.
    intros m Hm. assert (m = 0%nat) by lia. subst m. exact Hact.
  - destruct (Rlt_le_dec (to_waypoint g) (2 * player_speed (player g))) as [Hc | Hc].
    + destruct Hnear as (Hoff & Hlt); [lra | ].
      exists 1%nat. cbn [Player_updates INR].
      repeat split; try assumption; try lra.
      intros m Hm. assert (m = 0%nat) by lia. subst m. exact Hact.
    + destruct (Hfar Hc) as (Hon & Hd').
      rewrite S_INR in Hd.
      destruct (IH (run Player_update g)) as (n & H1 & H2 & H3 & H4 & H5 & H6 & H7).
      * exact Hon.
      * rewrite Es; exact Hs.
      * rewrite Es, Hd'. lra.
      * exists (S n). cbn [Player_updates].
        rewrite Es in *. rewrite Hd' in H7.
        repeat split; try assumption; try congruence.
        -- intros [|m] Hm; [exact Hact | ]. cbn [Player_updates]. apply H6. lia.
        -- rewrite S_INR. lra.
Qed.

(** X11.  The player always arrives.  With the waypoint active and a
    positive speed, after finitely many updates the player stops seeking
    the waypoint, less than one step away from it; until then it keeps
    seeking, and it takes about distance / speed updates, two more at
    most.  This includes a click on the player's own position: the
    player then steps away and comes back. *)
Theorem Player_always_arrives :
  forall g : TurtleAdventureGame,
    wp_active (waypoint g) = true ->
    0 < player_speed (player g) ->
    exists n : nat,
      wp_active (waypoint (Player_updates n g)) = false
      /\ distance (player_turtle (player (Player_updates n g)))
                  (wp_x (waypoint g)) (wp_y (waypoint g))
         < player_speed (player g)
      /\ (forall m, (m < n)%nat -> wp_active (waypoint (Player_updates m g)) = true)
      /\ INR n * player_speed (player g) <= to_waypoint g + 2 * player_speed (player g).
Proof.
  intros g Hact Hs.
  assert (Hmain : forall g : TurtleAdventureGame,
             wp_active (waypoint g) = true -> 0 < player_speed (player g) ->
             0 < to_waypoint g ->
             exists n : nat,
               wp_active (waypoint (Player_updates n g)) = false
               /\ to_waypoint (Player_updates n g) < player_speed (player g)
               /\ player_speed (player (Player_updates n g)) = player_speed (player g)
               /\ wp_x (waypoint (Player_updates n g)) = wp_x (waypoint g)
               /\ wp_y (waypoint (Player_updates n g)) = wp_y (waypoint g)
               /\ (forall m, (m < n)%nat -> wp_active (waypoint (Player_updates m g)) = true)
               /\ INR n * player_speed (player g)
                  < to_waypoint g + player_speed (player g)).
  { clear g Hact Hs. intros g Hact Hs Hd.
    destruct (INR_unbounded (to_waypoint g / player_speed (player g))) as (N & HN).
    apply (Player_arrives_within N g Hact Hs). split; [exact Hd | ].
    apply (Rmult_lt_compat_r (player_speed (player g))) in HN; [ | exact Hs].
    unfold Rdiv in HN. rewrite Rmult_assoc, Rinv_l, Rmult_1_r in HN by lra. lra. }
  assert (Hpos : 0 <= to_waypoint g) by (apply sqrt_pos).
  destruct (Rle_lt_or_eq_dec _ _ Hpos) as [Hd | Hd].
  - destruct (Hmain g Hact Hs Hd) as (n & H1 & H2 & H3 & H4 & H5 & H6 & H7).
    exists n. unfold to_waypoint in H2. rewrite H4, H5 in H2.
    repeat split; try assumption. lra.
  - destruct (Player_update_step g Hact Hs) as (Es & Ex & Ey & _ & _ & Hzero).
    destruct (Hzero (eq_sym Hd)) as (Hon & Hd').
    destruct (Hmain (run Player_update g)) as (n & H1 & H2 & H3 & H4 & H5 & H6 & H7).
    + exact Hon.
    + rewrite Es; exact Hs.
    + rewrite Hd'; exact Hs.
    + exists (S n). cbn [Player_updates]. rewrite Es in *. rewrite Hd' in H7.
      unfold to_waypoint in H2. rewrite H4, H5, Ex, Ey in H2.
      repeat split; try assumption.
      * intros [|m] Hm; [exact Hact | ]. cbn [Player_updates]. apply H6. lia.
      * assert (Hn : (n < 2)%nat).
        { apply INR_lt. change (INR 2) with (1 + 1).
          apply (Rmult_lt_reg_r (player_speed (player g))); [exact Hs | lra]. }
        assert (Hle : INR (S n) <= 2).
        { change 2 with (INR 2). apply le_INR. lia. }
        rewrite <- Hd.
        apply (Rmult_le_compat_r (player_speed (player g))) in Hle; lra.
Qed.

Lemma Player_always_arrives_witness :
  wp_active (waypoint seeking_game) = true
  /\ 0 < player_speed (player seeking_game)
  /\ exists n : nat, wp_active (waypoint (Player_updates n seeking_game)) = false.
Proof.
  assert (H1 : wp_active (waypoint seeking_game) = true) by reflexivity.
  assert (H2 : 0 < player_speed (player seeking_game)) by (cbn; lra).
  split; [exact H1 | split; [exact H2 | ] ].
  destruct (Player_always_arrives seeking_game H1 H2) as (n & Hn & _).
  exists n. exact Hn.
Defined.

(** ** The first tick *)




(** ** Enemies without size *)

Lemma hit_needs_size (g : TurtleAdventureGame) (e : Enemy) :
  (size e <= 0)%Z -> Enemy_hits_player g e = false.
Proof.
  intro Hs. apply IZR_le in Hs.
  unfold Enemy_hits_player, half.
  destruct (Rltb (x e - IZR (size e) / 2) (Player_x (player g))) eqn:E1;
    [ | reflexivity].
  destruct (Rltb (Player_x (player g)) (x e + IZR (size e) / 2)) eqn:E2;
    [ | reflexivity].
  apply Rltb_true in E1, E2. exfalso. lra.
Qed.

Lemma lose_if_hit_harmless (g : TurtleAdventureGame) (e : Enemy) :
  (size e <= 0)%Z -> lose_if_hit e g = (Ok tt, g).
Proof.
  intro Hs. unfold lose_if_hit, bind, get. rewrite (hit_needs_size g e Hs). reflexivity.
Qed.

Lemma RandomWalkEnemy_state_frame (w : RandomWalkEnemy) (g : TurtleAdventureGame) :
  exists (r : result RandomWalkEnemy) (g1 : TurtleAdventureGame),
    RandomWalkEnemy_state w g = (r, g1)
    /\ stopped g1 = stopped g
    /\ forall w', r = Ok w' -> size (rw_enemy w') = size (rw_enemy w).
Proof.
  assert (Hret : forall w1 g1,
             stopped g1 = stopped g -> size (rw_enemy w1) = size (rw_enemy w) ->
             exists (r : result RandomWalkEnemy) (g2 : TurtleAdventureGame),
               (Ok w1, g1) = (r, g2) /\ stopped g2 = stopped g
               /\ forall w', r = Ok w' -> size (rw_enemy w') = size (rw_enemy w)).
  { intros w1 g1 H1 H2. exists (Ok w1), g1.
    split; [reflexivity | split; [exact H1 | intros w' H; inversion H; subst; exact H2] ]. }
  assert (Hfail : forall r : result RandomWalkEnemy,
             (forall w', r <> Ok w') ->
             exists (r' : result RandomWalkEnemy) (g2 : TurtleAdventureGame),
               (r, g) = (r', g2) /\ stopped g2 = stopped g
               /\ forall w', r' = Ok w' -> size (rw_enemy w') = size (rw_enemy w)).
  { intros r Hr. exists r, g.
    split; [reflexivity | split; [reflexivity | intros w' H; destruct (Hr w' H)] ]. }
  unfold RandomWalkEnemy_state, RandomWalkEnemy_left, RandomWalkEnemy_right.
  destruct (rw_state w).
  - destruct (Rltb (x (rw_enemy w)) 0); [apply Hret; reflexivity | ].
    unfold bind, randint.
    destruct (rw_speed w - 4 + 1 <? - rw_speed w)%Z;
      [apply Hfail; intros w' H; discriminate H | ].
    destruct (tape g); [apply Hfail; intros w' H; discriminate H | ].
    apply Hret; reflexivity.
  - unfold bind at 1. unfold get. cbv beta iota.
    destruct (Rltb (IZR (winfo_width g)) (x (rw_enemy w))); [apply Hret; reflexivity | ].
    unfold bind, randint.
    destruct (rw_speed w + 1 <? - rw_speed w + 4)%Z;
      [apply Hfail; intros w' H; discriminate H | ].
    destruct (tape g); [apply Hfail; intros w' H; discriminate H | ].
    apply Hret; reflexivity.
Qed.

Lemma ChasingEnemy_state_size (g : TurtleAdventureGame) (c : ChasingEnemy) :
  size (ch_enemy (ChasingEnemy_ystate g (ChasingEnemy_xstate g c))) = size (ch_enemy c).
Proof.
  assert (Hx : forall c0, size (ch_enemy (ChasingEnemy_xstate g c0)) = size (ch_enemy c0)).
  { intro c0. unfold ChasingEnemy_xstate, ChasingEnemy_left, ChasingEnemy_right.
    destruct (ch_xstate c0);
      match goal with |- context [if ?b then _ else _] => destruct b end; reflexivity. }
  assert (Hy : forall c0, size (ch_enemy (ChasingEnemy_ystate g c0)) = size (ch_enemy c0)).
  { intro c0. unfold ChasingEnemy_ystate, ChasingEnemy_up, ChasingEnemy_down.
    destruct (ch_ystate c0);
      match goal with |- context [if ?b then _ else _] => destruct b end; reflexivity. }
  rewrite Hy. apply Hx.
Qed.

Lemma FencingEnemy_state_size (f : FencingEnemy) :
  size (fe_enemy (FencingEnemy_state f)) = size (fe_enemy f).
Proof.
  unfold FencingEnemy_state, FencingEnemy_down, FencingEnemy_right, FencingEnemy_up,
    FencingEnemy_left.
  destruct (fe_state f);
    match goal with |- context [if ?b then _ else _] => destruct b end; reflexivity.
Qed.

Lemma DeDestroyerEnemy_update_stopped (g : TurtleAdventureGame) (d : DeDestroyerEnemy) :
  stopped (run (DeDestroyerEnemy_update d) g) = stopped g.
Proof.
  unfold DeDestroyerEnemy_update, run. cbn [dd_timer].
  destruct ((dd_timer d + 1) mod 20 =? 0)%Z; [ | reflexivity].
  unfold when, bind, get, randint. cbn [Z.ltb Z.compare].
  destruct (tape g) as [|r1 [|r2 t] ]; reflexivity.
Qed.

(** X13.  An enemy whose size is not positive hits nothing: its hit box
    is empty, so the hit test fails wherever the player is, and no update
    of such an enemy ends the game.  The scheduler's enemies have size
    20, but a bomb has size 30 * level: at level 0 and below no bomb can
    ever be hit. *)
Theorem enemy_without_size_is_harmless :
  forall (e : GameElement) (b : Enemy) (g : TurtleAdventureGame),
    element_enemy e = Some b ->
    (size b <= 0)%Z ->
    (forall g', Enemy_hits_player g' b = false)
    /\ stopped (run (update_element e) g) = stopped g.
Proof.
  intros e b g He Hs. split; [intro g'; apply hit_needs_size; exact Hs | ].
  destruct e as [ | | |w|c|f|d|bm]; try discriminate He;
    cbn [element_enemy] in He; injection He as <-; unfold update_element, run.
  - destruct (RandomWalkEnemy_state_frame w g) as (r & g1 & E & H1 & H2).
    unfold bind at 1. unfold RandomWalkEnemy_update, bind at 1. rewrite E.
    destruct r as [w'| |]; cbn [fst snd]; try exact H1.
    unfold bind. rewrite lose_if_hit_harmless by (rewrite (H2 w' eq_refl); exact Hs).
    exact H1.
  - unfold bind at 1. unfold ChasingEnemy_update, bind at 1. unfold get. cbv beta iota.
    unfold bind.
    rewrite lose_if_hit_harmless by (rewrite ChasingEnemy_state_size; exact Hs).
    reflexivity.
  - unfold bind at 1. unfold FencingEnemy_update, bind.
    rewrite lose_if_hit_harmless by (rewrite FencingEnemy_state_size; exact Hs).
    reflexivity.
  - pose proof (DeDestroyerEnemy_update_stopped g d) as H. unfold run in H.
    unfold bind. destruct (DeDestroyerEnemy_update d g) as [[d'| |] g1]; exact H.
  - destruct (Bomb_update_spec g bm) as (_ & _ & H). unfold run in H.
    rewrite (hit_needs_size g _ Hs), andb_false_r in H.
    unfold bind. destruct (Bomb_update bm g) as [[b'| |] g1]; exact H.
Qed.

Lemma enemy_without_size_is_harmless_witness :
  stopped (run (update_element (ABomb (mkBomb (mkEnemy 50 250 0 "grey") (Some 4%nat) 25)))
               (initial_game 800 500 0 800))
  = false.
Proof.
  apply (enemy_without_size_is_harmless
           (ABomb (mkBomb (mkEnemy 50 250 0 "grey") (Some 4%nat) 25))
           (mkEnemy 50 250 0 "grey") (initial_game 800 500 0 800) eq_refl).
  cbn. lia.
Defined.

(** ** The collection over a whole play *)

Lemma same_entity_refl (e : GameElement) : same_entity e e.
Proof. destruct e; cbn; repeat split; lia. Qed.

Lemma same_entity_trans (a b c : GameElement) :
  same_entity a b -> same_entity b c -> same_entity a c.
Proof.
  destruct a, b; cbn; try tauto; destruct c; cbn; try tauto; unfold same_route;
    intros H1 H2; decompose [and] H1; decompose [and] H2; repeat split;
    try congruence; try lia.
Qed.

Lemma keeps_entries_entities (g g' : TurtleAdventureGame) :
  keeps_entries g g' -> keeps_entities g g'.
Proof. intros H i e Hi; exists e; split; [apply H, Hi | apply same_entity_refl]. Qed.

Lemma keeps_entities_refl (g : TurtleAdventureGame) : keeps_entities g g.
Proof. apply keeps_entries_entities, keeps_entries_refl. Qed.

Lemma keeps_entities_trans (a b c : TurtleAdventureGame) :
  keeps_entities a b -> keeps_entities b c -> keeps_entities a c.
Proof.
  intros Hab Hbc i e0 H.
  destruct (Hab i e0 H) as (e1 & H1 & L1).
  destruct (Hbc i e1 H1) as (e2 & H2 & L2).
  exists e2; split; [exact H2 | exact (same_entity_trans _ _ _ L1 L2)].
Qed.

Lemma tick_element_keeps_entities (j : nat) : respects keeps_entities (tick_element j).
Proof.
  intro g. unfold tick_element, run, bind at 1, get.
  destruct (nth_error (elements g) j) as [e|] eqn:Ej; [ | apply keeps_entities_refl].
  pose proof (update_element_keeps e g) as K1.
  pose proof (fun e' => update_element_same_entity e e' g) as Hb.
  unfold run, outcome in K1, Hb. unfold bind at 1.
  destruct (update_element e g) as [[e'| |] g1] eqn:Eu; cbn [fst snd] in *;
    try (apply keeps_entries_entities; exact K1).
  unfold bind, modify.
  pose proof (render_element_keeps e'
                (set_elements g1 (replace_nth j (elements g1) e'))) as K3.
  unfold run in K3.
  destruct (render_element e' _) as [r3 g3]; cbn [fst snd] in *.
  assert (Hfinal : keeps_entities g g3).
  { intros i e0 Hi.
    destruct (Nat.eq_dec i j) as [-> | Hij].
    - rewrite Ej in Hi; injection Hi as <-.
      exists e'; split.
      + apply K3. cbn [elements set_elements].
        apply (nth_error_replace_nth_eq _ _ _ e). apply K1, Ej.
      + apply Hb; reflexivity.
    - exists e0; split; [ | apply same_entity_refl].
      apply K3. cbn [elements set_elements].
      rewrite nth_error_replace_nth_neq by exact Hij. apply K1, Hi. }
  destruct r3; exact Hfinal.
Qed.

Lemma for_each_keeps_entities (l : list nat) :
  respects keeps_entities (for_each l tick_element).
Proof.
  induction l as [|j l IH]; intro g; simpl.
  - apply keeps_entities_refl.
  - unfold run, bind.
    pose proof (tick_element_keeps_entities j g) as H1. unfold run in H1.
    destruct (tick_element j g) as [[[]| |] g1]; cbn [snd] in *; auto.
    eapply keeps_entities_trans; [exact H1 | apply IH].
Qed.

Lemma handle_keeps_entities (ev : Event) : respects keeps_entities (handle ev).
Proof.
  intro g; destruct ev as [draws | px py | draws | width].
  - change (keeps_entities g (run tick (set_tape g draws))).
    apply (keeps_entities_trans _ (set_tape g draws)).
    { apply keeps_entries_entities, keeps_entries_same; reflexivity. }
    generalize (set_tape g draws); intro g1.
    unfold run, tick, bind, get. cbv beta iota.
    destruct (stopped g1); [apply keeps_entities_refl | apply for_each_keeps_entities].
  - apply keeps_entries_entities, keeps_entries_same; reflexivity.
  - change (keeps_entities g (run fire_timer (set_tape g draws))).
    apply (keeps_entities_trans _ (set_tape g draws)).
    { apply keeps_entries_entities, keeps_entries_same; reflexivity. }
    generalize (set_tape g draws); intro g1.
    unfold run, fire_timer, bind at 1, get. cbv beta iota.
    destruct (scheduled g1) as [|[d []] rest]; [apply keeps_entities_refl | ].
    change (keeps_entities g1 (run EnemyGenerator_create_enemy (set_scheduled g1 rest))).
    apply (keeps_entities_trans _ (set_scheduled g1 rest)).
    + apply keeps_entries_entities, keeps_entries_same; reflexivity.
    + apply keeps_entries_entities, create_enemy_keeps.
  - apply keeps_entries_entities, keeps_entries_same; reflexivity.
Qed.

(** X14.  Nothing ever leaves the game.  Whatever happens to a game
    (ticks, clicks, spawns, also ones that raise), every entity of the
    collection stays in it at its place, of the same kind and with the
    same size, colour, speed and canvas item: no enemy or bomb is ever
    removed or replaced.  A walker stays in its row, a patroller keeps
    its route, and a bombardier and a bomb never move. *)
Theorem entities_are_permanent :
  forall (evs : list Event) (g : TurtleAdventureGame),
    keeps_entities g (play evs g).
Proof.
  intros evs; induction evs as [|ev evs IH]; intro g; simpl.
  - apply keeps_entities_refl.
  - eapply keeps_entities_trans; [apply handle_keeps_entities | apply IH].
Qed.

Lemma entities_are_permanent_witness :
  exists e',
    nth_error (elements (play [ev_click 300 200; ev_tick []] (initial_game 800 500 1 800)))
              2
    = Some e'
    /\ same_entity ThePlayer e'.
Proof.
  exact (entities_are_permanent [ev_click 300 200; ev_tick []]
           (initial_game 800 500 1 800) 2%nat ThePlayer eq_refl).
Defined.

(** ** ChasingEnemy: a player who rests *)

Lemma axis_step_cases (p s : R) (st : bool * R) :
  0 < s ->
  (snd (axis_step p s st) = snd st
   /\ Rabs (snd (axis_step p s (axis_step p s st)) - p) = Rabs (Rabs (snd st - p) - s))
  \/ Rabs (snd (axis_step p s st) - p) = Rabs (Rabs (snd st - p) - s).
Proof.
  intro Hs. destruct st as [fwd a].
  destruct fwd; unfold axis_step; cbn [fst snd].
  - destruct (Rltb p a) eqn:C; [apply Rltb_true in C | apply Rltb_false in C];
      cbn [fst snd].
    + left. split; [reflexivity | ].
      replace (Rltb a p) with false by (symmetry; apply Rltb_false; lra).
      cbn [snd]. apply retreat_step; lra.
    + right. apply approach_step; lra.
  - destruct (Rltb a p) eqn:C; [apply Rltb_true in C | apply Rltb_false in C];
      cbn [fst snd].
    + left. split; [reflexivity | ].
      replace (Rltb p a) with false by (symmetry; apply Rltb_false; lra).
      cbn [snd]. apply approach_step; lra.
    + right. apply retreat_step; lra.
Qed.

Lemma axis_step_stays (p s : R) (st : bool * R) :
  0 < s -> Rabs (snd st - p) <= s -> Rabs (snd (axis_step p s st) - p) <= s.
Proof.
  intros Hs Hd. destruct st as [fwd a]. unfold axis_step. cbn [fst snd] in *.
  pose proof (Rabs_pos (a - p)) as Hp.
  destruct fwd.
  - destruct (Rltb p a) eqn:C; [exact Hd | apply Rltb_false in C].
    cbn [snd]. rewrite (proj1 (approach_step a p s (Rlt_le _ _ Hs) C)).
    apply Rabs_le_iff. lra.
  - destruct (Rltb a p) eqn:C; [exact Hd | apply Rltb_false in C].
    cbn [snd]. rewrite (proj1 (retreat_step a p s (Rlt_le _ _ Hs) C)).
    apply Rabs_le_iff. lra.
Qed.

Lemma axis_steps_stay (p s : R) (n : nat) :
  forall st, 0 < s -> Rabs (snd st - p) <= s -> Rabs (snd (axis_steps p s n st) - p) <= s.
Proof.
  induction n as [|n IH]; intros st Hs Hd; cbn [axis_steps]; [exact Hd | ].
  apply IH; [exact Hs | apply axis_step_stays; assumption].
Qed.

Lemma axis_steps_add (p s : R) (n m : nat) (st : bool * R) :
  axis_steps p s (n + m) st = axis_steps p s m (axis_steps p s n st).
Proof. revert st; induction n as [|n IH]; intro st; cbn; auto. Qed.

Lemma axis_reaches (p s : R) (K : nat) :
  0 < s ->
  forall st, Rabs (snd st - p) <= (INR K + 1) * s ->
             exists N, Rabs (snd (axis_steps p s N st) - p) <= s.
Proof.
  intro Hs. induction K as [|K IH]; intros st Hd.
  - exists 0%nat. cbn [axis_steps INR] in *. lra.
  - destruct (Rle_lt_dec (Rabs (snd st - p)) s) as [Hc | Hc].
    + exists 0%nat. exact Hc.
    + rewrite S_INR in Hd.
      assert (Hnext : Rabs (Rabs (snd st - p) - s) <= (INR K + 1) * s)
        by (rewrite Rabs_right; lra).
      destruct (axis_step_cases p s st Hs) as [[_ E] | E].
      * destruct (IH (axis_step p s (axis_step p s st))) as (N & HN);
          [rewrite E; exact Hnext | ].
        exists (S (S N)). exact HN.
      * destruct (IH (axis_step p s st)) as (N & HN); [rewrite E; exact Hnext | ].
        exists (S N). exact HN.
Qed.

(** From some update on, the chaser stays within one step of the player
    on the axis. *)
Lemma axis_settles (p s : R) (st : bool * R) :
  0 < s -> exists N, forall n, (N <= n)%nat -> Rabs (snd (axis_steps p s n st) - p) <= s.
Proof.
  intro Hs.
  destruct (INR_unbounded (Rabs (snd st - p) / s)) as (K & HK).
  assert (Hd : Rabs (snd st - p) <= (INR K + 1) * s).
  { apply (Rmult_lt_compat_r s) in HK; [ | exact Hs].
    unfold Rdiv in HK. rewrite Rmult_assoc, Rinv_l, Rmult_1_r in HK by lra. lra. }
  destruct (axis_reaches p s K Hs st Hd) as (N & HN).
  exists N. intros n Hn. replace n with (N + (n - N))%nat by lia.
  rewrite axis_steps_add. apply axis_steps_stay; assumption.
Qed.

Lemma chase_axes (g : TurtleAdventureGame) (n : nat) :
  forall c : ChasingEnemy,
    x_axis (chase g n c) = axis_steps (Player_x (player g)) (ch_speed c) n (x_axis c)
    /\ y_axis (chase g n c) = axis_steps (Player_y (player g)) (ch_speed c) n (y_axis c)
    /\ ch_speed (chase g n c) = ch_speed c
    /\ size (ch_enemy (chase g n c)) = size (ch_enemy c).
Proof.
  induction n as [|n IH]; intro c; cbn [chase axis_steps]; [repeat split | ].
  assert (H1 : x_axis (ChasingEnemy_ystate g (ChasingEnemy_xstate g c))
               = axis_step (Player_x (player g)) (ch_speed c) (x_axis c)
               /\ y_axis (ChasingEnemy_ystate g (ChasingEnemy_xstate g c))
                  = axis_step (Player_y (player g)) (ch_speed c) (y_axis c)
               /\ ch_speed (ChasingEnemy_ystate g (ChasingEnemy_xstate g c)) = ch_speed c
               /\ size (ch_enemy (ChasingEnemy_ystate g (ChasingEnemy_xstate g c)))
                  = size (ch_enemy c)).
  { unfold ChasingEnemy_ystate, ChasingEnemy_xstate, ChasingEnemy_left, ChasingEnemy_right,
      ChasingEnemy_up, ChasingEnemy_down, x_axis, y_axis, axis_step.
    destruct (ch_xstate c) eqn:Ex; cbn [fst snd];
      destruct (Rltb _ _); cbn [ch_with_xstate ch_with_enemy ch_ystate ch_enemy ch_speed];
      destruct (ch_ystate c) eqn:Ey; cbn [fst snd];
      destruct (Rltb _ _); cbn; rewrite ?Ex, ?Ey; repeat split. }
  destruct H1 as (Hx & Hy & Hv & Hz).
  destruct (IH (ChasingEnemy_ystate g (ChasingEnemy_xstate g c))) as (Ix & Iy & Iv & Iz).
  rewrite Ix, Iy, Iv, Iz, Hx, Hy, Hv, Hz. repeat split.
Qed.

(** X15.  A chaser catches a player who rests.  If its speed is positive
    and less than half its size (levels 1 to 9 for the scheduler's
    chasers, of size 20 and speed equal to the level), then from some
    update on the chaser is within one step of the player on both axes,
    the player is inside its hit box, and its update ends the game. *)
Theorem ChasingEnemy_catches_a_resting_player :
  forall (g : TurtleAdventureGame) (c : ChasingEnemy),
    0 < ch_speed c ->
    ch_speed c < half (size (ch_enemy c)) ->
    exists N : nat,
      forall n : nat,
        (N <= n)%nat ->
        Enemy_hits_player g (ch_enemy (chase g n c)) = true
        /\ outcome (ChasingEnemy_update (chase g n c)) g = Ok (chase g (S n) c)
        /\ stopped (run (ChasingEnemy_update (chase g n c)) g) = true.
Proof.
  intros g c Hs Hsz.
  destruct (axis_settles (Player_x (player g)) (ch_speed c) (x_axis c) Hs) as (Nx & Hx).
  destruct (axis_settles (Player_y (player g)) (ch_speed c) (y_axis c) Hs) as (Ny & Hy).
  assert (Hhit : forall m, (Nat.max Nx Ny <= m)%nat ->
                           Enemy_hits_player g (ch_enemy (chase g m c)) = true).
  { intros m Hm.
    destruct (chase_axes g m c) as (Ax & Ay & _ & Az).
    assert (Hxm : Rabs (x (ch_enemy (chase g m c)) - Player_x (player g)) <= ch_speed c).
    { change (x (ch_enemy (chase g m c))) with (snd (x_axis (chase g m c))).
      rewrite Ax. apply Hx. lia. }
    assert (Hym : Rabs (y (ch_enemy (chase g m c)) - Player_y (player g)) <= ch_speed c).
    { change (y (ch_enemy (chase g m c))) with (snd (y_axis (chase g m c))).
      rewrite Ay. apply Hy. lia. }
    apply Rabs_le_iff in Hxm, Hym.
    unfold Enemy_hits_player. rewrite Az.
    rewrite !andb_true_iff, !Rltb_true. repeat split; lra. }
  assert (Hstep : forall m, chase g (S m) c
                            = ChasingEnemy_ystate g (ChasingEnemy_xstate g (chase g m c))).
  { intro m. generalize c. induction m as [|m IH]; intro c0; [reflexivity | ].
    change (chase g (S (S m)) c0)
      with (chase g (S m) (ChasingEnemy_ystate g (ChasingEnemy_xstate g c0))).
    rewrite IH. reflexivity. }
  exists (Nat.max Nx Ny). intros n Hn.
  split; [apply Hhit; exact Hn | ].
  split; [rewrite Hstep; apply ChasingEnemy_update_ok | ].
  assert (Hn' : Enemy_hits_player g (ch_enemy (chase g (S n) c)) = true)
    by (apply Hhit; lia).
  rewrite Hstep in Hn'.
  assert (Hlose : lose_if_hit (ch_enemy (ChasingEnemy_ystate g
                                           (ChasingEnemy_xstate g (chase g n c)))) g
                  = game_over_lose g).
  { unfold lose_if_hit. rewrite (bind_eq get _ g g g eq_refl). rewrite Hn'. reflexivity. }
  unfold ChasingEnemy_update, run. rewrite (bind_eq get _ g g g eq_refl). cbv zeta.
  unfold bind at 1. rewrite Hlose. reflexivity.
Qed.

Lemma ChasingEnemy_catches_a_resting_player_witness :
  0 < ch_speed close_chaser
  /\ ch_speed close_chaser < half (size (ch_enemy close_chaser))
  /\ exists N : nat,
       stopped (run (ChasingEnemy_update (chase (game_with_player_at 300 200) N close_chaser))
                    (game_with_player_at 300 200))
       = true.
Proof.
  assert (H1 : 0 < ch_speed close_chaser) by (cbn; lra).
  assert (H2 : ch_speed close_chaser < half (size (ch_enemy close_chaser)))
    by (cbn; unfold half; lra).
  split; [exact H1 | split; [exact H2 | ] ].
  destruct (ChasingEnemy_catches_a_resting_player (game_with_player_at 300 200)
              close_chaser H1 H2) as (N & HN).
  exists N. apply (HN N). apply le_n.
Defined.
